(** * crewai-agency: the asynchronous job subsystem

    A shallow embedding of

    - [app/core/job_store.py]  (JobStatus, Job, JobStore),
    - [app/crews/marketing_crew.py]  (the retry decorator on [_execute_crew];
      the other three crews carry the same decorator),
    - [app/main.py]  ([_run_crew_job], [_cleanup_jobs_periodically]),

    and the properties of the job subsystem proved over it.

    Conventions.
    - A Python object that is shared by reference (a [Job]) lives in an
      object heap; a variable holding it is an address into that heap.
    - A value of [time.time()] is an integer number of clock ticks; every
      operation that reads the clock takes the reading as an argument.
    - [uuid.uuid4()] is an argument of [create_job]: the identifier drawn.
    - A raised exception is a value of [Exc]; a call that may raise returns
      a sum [Exc + A]. *)

From stdpp Require Import gmap strings list fin_maps pretty.
From Stdlib Require Import ZArith.

Open Scope Z_scope.

(* ===================================================================== *)
(** ** Python values used by the subsystem *)
(* ===================================================================== *)

(** [dict[str, Any]] as far as the job subsystem looks into it: the store
    and the dispatcher only pass dictionaries around and compare them with
    [None]. *)
Definition Dict : Type := list (string * string).

(** An exception object: its class name, the names of the classes it
    inherits from (the rest of its method resolution order) and its
    message; or tenacity's [RetryError], which carries the failed last
    attempt. *)
Inductive Exc : Type :=
  | PyExc (cls : string) (bases : list string) (msg : string)
  | RetryError (last_attempt : Exc).

(** [type(e).__name__] *)
Definition type_name (e : Exc) : string :=
  match e with
  | PyExc cls _ _ => cls
  | RetryError _ => "RetryError"
  end.

(** [isinstance(e, cls)] *)
Definition isinstance (e : Exc) (c : string) : bool :=
  match e with
  | PyExc cls bases _ => bool_decide (c = cls) || bool_decide (c ∈ bases)
  | RetryError _ =>
      bool_decide (c ∈ ["RetryError"; "Exception"; "BaseException"; "object"])
  end.

(** Builders for the built-in exceptions that occur below. *)
Definition exception_bases : list string := ["Exception"; "BaseException"; "object"].
Definition TimeoutError (msg : string) : Exc :=
  PyExc "TimeoutError" ("OSError" :: exception_bases) msg.
Definition ValueError (msg : string) : Exc :=
  PyExc "ValueError" exception_bases msg.
Definition KeyError (key : string) : Exc :=
  PyExc "KeyError" ("LookupError" :: exception_bases) key.

(* ===================================================================== *)
(** ** app/core/job_store.py *)
(* ===================================================================== *)

(** [class JobStatus(str, Enum)] *)
Inductive JobStatus : Type := QUEUED | RUNNING | DONE | FAILED.

#[global] Instance JobStatus_eq_dec : EqDecision JobStatus.
Proof. solve_decision. Defined.

(** [JobStatus.value] *)
Definition JobStatus_value (s : JobStatus) : string :=
  match s with
  | QUEUED => "queued"
  | RUNNING => "running"
  | DONE => "done"
  | FAILED => "failed"
  end.

(** [@dataclass class Job] *)
Record Job : Type := mkJob {
  job_id : string;
  trace_id : string;
  crew : string;
  status : JobStatus;
  result : option Dict;
  error : option Dict;
  created_at : Z;
  updated_at : Z
}.

(** Attribute assignments [job.f = v]. *)
Definition set_status (v : JobStatus) (j : Job) : Job :=
  mkJob (job_id j) (trace_id j) (crew j) v (result j) (error j)
        (created_at j) (updated_at j).
Definition set_result (v : option Dict) (j : Job) : Job :=
  mkJob (job_id j) (trace_id j) (crew j) (status j) v (error j)
        (created_at j) (updated_at j).
Definition set_error (v : option Dict) (j : Job) : Job :=
  mkJob (job_id j) (trace_id j) (crew j) (status j) (result j) v
        (created_at j) (updated_at j).
Definition set_updated_at (v : Z) (j : Job) : Job :=
  mkJob (job_id j) (trace_id j) (crew j) (status j) (result j) (error j)
        (created_at j) v.

(** The [JobStore] object together with the [Job] objects it was ever
    given.  [heap] holds the Job objects, an address is an index into it
    and allocation appends; [_jobs] is the dictionary from job id to the
    Job object, that is, to its address. *)
Record JobStore : Type := mkJobStore {
  heap : list Job;
  _jobs : gmap string nat;
  _ttl_seconds : Z
}.

(** [JobStore.__init__] *)
Definition JobStore_init (ttl_seconds : Z) : JobStore :=
  mkJobStore [] ∅ ttl_seconds.

(** [job_store = JobStore(ttl_seconds=3600)] *)
Definition job_store0 : JobStore := JobStore_init 3600.

(** [JobStore.create_job].  [uuid] is the value of [str(uuid.uuid4())];
    [t_created] and [t_updated] are the two clock readings taken by the
    default factories of [created_at] and [updated_at].  The returned
    value is the very object stored in the dictionary. *)
Definition create_job (uuid : string) (t_created t_updated : Z)
    (trace crew_name : string) (st : JobStore) : nat * JobStore :=
  let job := mkJob uuid trace crew_name QUEUED None None t_created t_updated in
  let p := length (heap st) in
  (p, mkJobStore (heap st ++ [job]) (<[uuid := p]> (_jobs st)) (_ttl_seconds st)).

(** [JobStore.get_job]: [self._jobs.get(job_id)], a reference or [None]. *)
Definition get_job (id : string) (st : JobStore) : option nat :=
  _jobs st !! id.

(** The record behind a reference. *)
Definition deref (p : nat) (st : JobStore) : option Job := heap st !! p.

(** What a reader of the store sees for a job id. *)
Definition read_job (id : string) (st : JobStore) : option Job :=
  p ← get_job id st; deref p st.

(** The three conditional assignments and the time stamp of
    [update_job], applied to the Job object found. *)
Definition apply_update (new_status : option JobStatus)
    (new_result new_error : option Dict) (now : Z) (job : Job) : Job :=
  let job := match new_status with Some s => set_status s job | None => job end in
  let job := match new_result with Some r => set_result (Some r) job | None => job end in
  let job := match new_error with Some e => set_error (Some e) job | None => job end in
  set_updated_at now job.

(** [JobStore.update_job]: mutates the Job object in place and returns
    the reference to it, or [None] when the id is not in the dictionary. *)
Definition update_job (id : string) (new_status : option JobStatus)
    (new_result new_error : option Dict) (now : Z) (st : JobStore)
    : option nat * JobStore :=
  match _jobs st !! id with
  | None => (None, st)
  | Some p =>
      (Some p,
       mkJobStore (alter (apply_update new_status new_result new_error now) p (heap st))
                  (_jobs st) (_ttl_seconds st))
  end.

(** The condition of the list comprehension of [cleanup_old_jobs]. *)
Definition is_old (st : JobStore) (cutoff : Z) (item : string * nat) : bool :=
  match heap st !! item.2 with
  | Some job => bool_decide (created_at job < cutoff)
  | None => false
  end.

(** The list comprehension of [cleanup_old_jobs]: the ids of the items
    of the dictionary whose job was created before the cutoff. *)
Definition old_job_ids (cutoff : Z) (st : JobStore) : list string :=
  (filter (λ it, is_old st cutoff it = true) (map_to_list (_jobs st))).*1.

(** [JobStore.cleanup_old_jobs]; [now] is the reading of [time.time()].
    The [for] loop deletes the selected ids one by one. *)
Definition cleanup_old_jobs (now : Z) (st : JobStore) : nat * JobStore :=
  let cutoff := now - _ttl_seconds st in
  let old := old_job_ids cutoff st in
  (length old,
   mkJobStore (heap st) (foldl (λ m id, delete id m) (_jobs st) old)
              (_ttl_seconds st)).

(** An assignment made by a caller through a reference it holds:
    [job.status = v], [job.result = v], ... outside the store. *)
Definition external_write (p : nat) (f : Job → Job) (st : JobStore) : JobStore :=
  mkJobStore (alter f p (heap st)) (_jobs st) (_ttl_seconds st).

(* ===================================================================== *)
(** ** The retry decorator (tenacity) *)
(* ===================================================================== *)

(** The part of the tenacity library that the decorator of
    [_execute_crew] configures: the [stop], [wait] and [retry] strategies
    it names and the loop of [Retrying.__call__] that consults them.
    Options the decorator does not pass keep the library's defaults, in
    particular [reraise=False]. *)
Module tenacity.

(** [stop_after_attempt(n)]: stop once [attempt_number >= n]. *)
Definition stop_after_attempt (max_attempt_number attempt_number : nat) : bool :=
  bool_decide (max_attempt_number ≤ attempt_number)%nat.

(** [wait_exponential(multiplier, min, max)] with the default base 2:
    [max(max(0, min), min(multiplier * 2 ** (attempt_number - 1), max))]. *)
Definition wait_exponential (multiplier min max : Z) (attempt_number : nat) : Z :=
  let exp := 2 ^ (Z.of_nat attempt_number - 1) in
  let result := multiplier * exp in
  Z.max (Z.max 0 min) (Z.min result max).

(** [retry_if_exception_type(types)]: the attempt failed with an
    instance of one of [types]. *)
Definition retry_if_exception_type (types : list string) (e : Exc) : bool :=
  existsb (isinstance e) types.

(** The arguments of [@retry(...)]. *)
Record Retrying : Type := mkRetrying {
  stop : nat → bool;
  wait : nat → Z;
  retry : Exc → bool;
  reraise : bool
}.

(** What a decorated call did: what it returned or raised, how many
    times the wrapped function was invoked, the sleeps between the
    attempts, and the state the invocations left behind. *)
Record Called (W A : Type) : Type := mkCalled {
  outcome : Exc + A;
  calls : nat;
  slept : list Z;
  after : W
}.
Arguments mkCalled {W A}.
Arguments outcome {W A}.
Arguments calls {W A}.
Arguments slept {W A}.
Arguments after {W A}.

Section call.
Context {W A : Type}.
Variable policy : Retrying.
(** The wrapped function; [W] is whatever state its invocations share. *)
Variable fn : W → (Exc + A) * W.

(** The loop of [Retrying.__call__].  Each round invokes [fn] under
    [except BaseException] and then decides as [Retrying.iter] does:
    a result, or a failure that is neither the library's own
    [TryAgain] request nor selected by [retry], leaves the loop as it
    is; otherwise, when [stop] says so, the loop ends with
    [RetryError(last_attempt)] (or the last exception itself under
    [reraise]); otherwise it sleeps and starts the next attempt.
    [fuel] bounds the number of rounds unfolded. *)
Fixpoint attempt_loop (fuel attempt_number n_calls : nat) (sl : list Z) (w : W)
    : option (Called W A) :=
  match fuel with
  | O => None
  | S fuel' =>
      let (out, w') := fn w in
      let n_calls' := S n_calls in
      match out with
      | inr r => Some (mkCalled (inr r) n_calls' sl w')
      | inl e =>
          if negb (isinstance e "TryAgain" || retry policy e)
          then Some (mkCalled (inl e) n_calls' sl w')
          else if stop policy attempt_number
          then Some (mkCalled (inl (if reraise policy then e else RetryError e))
                              n_calls' sl w')
          else attempt_loop fuel' (S attempt_number) n_calls'
                            (sl ++ [wait policy attempt_number]) w'
      end
  end.

(** A decorated call: the first attempt has number 1. *)
Definition call (fuel : nat) (w : W) : option (Called W A) :=
  attempt_loop fuel 1%nat 0%nat [] w.
End call.

End tenacity.

(* ===================================================================== *)
(** ** app/crews/marketing_crew.py *)
(* ===================================================================== *)

(** What [crew.kickoff()] returns: an object that may have a [raw]
    attribute, and its [str()]. *)
Record CrewOutput : Type := mkCrewOutput {
  raw : option string;
  str_of : string
}.

(** [result.raw if hasattr(result, 'raw') else str(result)] *)
Definition output_text (result : CrewOutput) : string :=
  match raw result with Some r => r | None => str_of result end.

(** The failures the decorator retries on: instances of [TimeoutError]
    or [ConnectionError]. *)
Definition transient (e : Exc) : bool :=
  tenacity.retry_if_exception_type ["TimeoutError"; "ConnectionError"] e.

(** tenacity's own [TryAgain], by which a wrapped function asks for
    another attempt. *)
Definition try_again (e : Exc) : bool := isinstance e "TryAgain".

(** [@retry(stop=stop_after_attempt(2),
            wait=wait_exponential(multiplier=1, min=2, max=10),
            retry=retry_if_exception_type((TimeoutError, ConnectionError)))] *)
Definition execute_crew_retry : tenacity.Retrying :=
  tenacity.mkRetrying
    (tenacity.stop_after_attempt 2)
    (tenacity.wait_exponential 1 2 10)
    transient
    false.

Section MarketingCrew.
(** The state the crew's provider calls depend on and change. *)
Context {W : Type}.
(** [crew.kickoff] *)
Variable kickoff : W → (Exc + CrewOutput) * W.

(** The undecorated body of [_execute_crew]: [crew.kickoff()], then
    [result.raw if hasattr(result, 'raw') else str(result)]. *)
Definition execute_crew_body (w : W) : (Exc + string) * W :=
  let (out, w') := kickoff w in
  match out with
  | inl e => (inl e, w')
  | inr result => (inr (output_text result), w')
  end.

(** [MarketingCrew._execute_crew]: the body under the decorator.  Two
    rounds of the loop are unfolded, which [execute_crew_total] shows
    to be all there are. *)
Definition _execute_crew (w : W) : option (tenacity.Called W string) :=
  tenacity.call execute_crew_retry execute_crew_body 2 w.
End MarketingCrew.

(* ===================================================================== *)
(** ** app/main.py *)
(* ===================================================================== *)

(** What the process does that can be observed besides the store: log
    records (with the trace id the logging filter attaches), invocations
    of a crew's [run], and sleeps. *)
Inductive Event : Type :=
  | Log (level trace msg : string)
  | Invoke (crew_name : string) (payload : Dict) (meta : option Dict) (trace : string)
  | Sleep (seconds : Z).

(** The state shared by the threads of the process: the module-level
    [job_store] and the output produced so far. *)
Record World : Type := mkWorld {
  store : JobStore;
  events : list Event
}.

Definition emit (ev : Event) (w : World) : World :=
  mkWorld (store w) (events w ++ [ev]).
Definition with_store (st : JobStore) (w : World) : World :=
  mkWorld st (events w).

(** [set_trace_id]: [trace_id_var] is a context variable, so each thread
    has its own; the value is carried by the thread that set it. *)
Definition set_trace_id (trace : string) : string := trace.

(** [logger.info], [logger.error] in a thread whose [trace_id_var] is [ctx]. *)
Definition logger_info (ctx msg : string) (w : World) : World :=
  emit (Log "INFO" ctx msg) w.
Definition logger_error (ctx msg : string) (w : World) : World :=
  emit (Log "ERROR" ctx msg) w.

(** [crew_class().run(payload, meta, trace_id)] of one crew class: a
    result dictionary or the exception it raises. *)
Definition WorkUnit : Type := Dict → option Dict → string → Exc + Dict.

(** The error dictionary of the [except] branch. *)
Definition EXECUTION_ERROR : Dict :=
  [("code", "EXECUTION_ERROR"); ("message", "An error occurred during crew execution")].

Section Dispatcher.
Variables MarketingCrew SupportCrew AnalysisCrew SocialMediaCrew : WorkUnit.

Definition CREW_MAP : gmap string WorkUnit :=
  <["marketing" := MarketingCrew]>
    (<["support" := SupportCrew]>
       (<["analysis" := AnalysisCrew]>
          (<["social_media" := SocialMediaCrew]> ∅))).

(** Lines 44-48 of [_run_crew_job]: the trace id, the RUNNING mark
    (whose return value is dropped) and the start message.  [t] is the
    clock reading of the update. *)
Definition run_job_begin (id crew_name trace : string) (t : Z) (w : World) : World :=
  let ctx := set_trace_id trace in
  let w := with_store (update_job id (Some RUNNING) None None t (store w)).2 w in
  logger_info ctx ("Job " +:+ id +:+ " started for crew: " +:+ crew_name) w.

(** Lines 51-53: the body of the [try] up to the result of [run]. *)
Definition run_job_work (crew_name : string) (payload : Dict) (meta : option Dict)
    (trace : string) (w : World) : (Exc + Dict) * World :=
  match CREW_MAP !! crew_name with
  | None => (inl (KeyError crew_name), w)
  | Some crew_class =>
      (crew_class payload meta trace, emit (Invoke crew_name payload meta trace) w)
  end.

(** Lines 55-64: the DONE update, or the [except Exception] handler.
    An exception that is not an instance of [Exception] is not caught
    and leaves the function. *)
Definition run_job_end (id trace : string) (out : Exc + Dict) (t : Z) (w : World)
    : option Exc * World :=
  let ctx := set_trace_id trace in
  match out with
  | inr res =>
      let w := with_store (update_job id (Some DONE) (Some res) None t (store w)).2 w in
      (None, logger_info ctx ("Job " +:+ id +:+ " completed successfully") w)
  | inl e =>
      if isinstance e "Exception" then
        let w := logger_error ctx ("Job " +:+ id +:+ " failed: " +:+ type_name e) w in
        (None,
         with_store (update_job id (Some FAILED) None (Some EXECUTION_ERROR) t (store w)).2 w)
      else (Some e, w)
  end.

(** [_run_crew_job], run without interference from other threads
    between its two updates.  [t1] and [t2] are the clock readings of
    the two updates.  The first component is the exception that leaves
    the function, if any. *)
Definition _run_crew_job (id crew_name : string) (payload : Dict)
    (meta : option Dict) (trace : string) (t1 t2 : Z) (w : World)
    : option Exc * World :=
  let w := run_job_begin id crew_name trace t1 w in
  let (out, w) := run_job_work crew_name payload meta trace w in
  run_job_end id trace out t2 w.
End Dispatcher.

(** One call of the sweep as the reaper sees it: it may raise, or return
    the number removed. *)
Definition Sweep : Type := Z → JobStore → Exc + (nat * JobStore).

(** [job_store.cleanup_old_jobs()], which has no failing path. *)
Definition job_store_cleanup : Sweep :=
  λ now st, inr (cleanup_old_jobs now st).

(** How far a thread got: still in its loop, or ended by an exception. *)
Inductive Thread : Type :=
  | Looping (w : World)
  | Raised (e : Exc) (w : World).

(** One round of the [while True] of [_cleanup_jobs_periodically].  The
    body has no [try]: an exception of the sweep leaves the loop. *)
Definition cleanup_round (sweep : Sweep) (now : Z) (w : World) : Thread :=
  let w := emit (Sleep 300) w in
  match sweep now (store w) with
  | inl e => Raised e w
  | inr (removed, st') =>
      let w := with_store st' w in
      if bool_decide (0 < removed)%nat
      then Looping (logger_info "-" ("Cleaned up " +:+ pretty removed +:+ " old jobs") w)
      else Looping w
  end.

(** [_cleanup_jobs_periodically], observed for as many rounds as there
    are clock readings in [clock] (one reading per call of the sweep). *)
Fixpoint _cleanup_jobs_periodically (sweep : Sweep) (clock : list Z) (w : World) : Thread :=
  match clock with
  | [] => Looping w
  | now :: clock' =>
      match cleanup_round sweep now w with
      | Looping w' => _cleanup_jobs_periodically sweep clock' w'
      | Raised e w' => Raised e w'
      end
  end.

(** The rounds a run of the reaper started: one sleep opens each round. *)
Definition is_sleep (ev : Event) : bool :=
  match ev with Sleep _ => true | _ => false end.
Definition thread_world (t : Thread) : World :=
  match t with Looping w => w | Raised _ w => w end.
Definition rounds_started (t : Thread) : nat :=
  length (filter (λ ev, is_sleep ev = true) (events (thread_world t))).

(* ===================================================================== *)
(** ** The threads of the process around the store *)
(* ===================================================================== *)

(** Every store operation runs under the store's lock, so the threads of
    the process interleave at the granularity of whole operations.  A
    dispatcher thread is between its start and its RUNNING mark
    ([Started]) or between the mark and its final update ([Marked]). *)
Inductive Phase : Type := Started | Marked.

(** The arguments a dispatcher thread was started with, and its phase. *)
Record Task : Type := mkTask {
  task_crew : string;
  task_payload : Dict;
  task_meta : option Dict;
  task_trace : string;
  task_phase : Phase
}.

Definition mark (k : Task) : Task :=
  mkTask (task_crew k) (task_payload k) (task_meta k) (task_trace k) Marked.

(** The process: the shared world, the dispatcher threads alive (by job
    id), and the identifiers [uuid4] has produced so far. *)
Record System : Type := mkSystem {
  world : World;
  tasks : gmap string Task;
  issued : gset string
}.

Definition System_init : System := mkSystem (mkWorld job_store0 []) ∅ ∅.

Section System.
Variables MarketingCrew SupportCrew AnalysisCrew SocialMediaCrew : WorkUnit.

Let crew_map := CREW_MAP MarketingCrew SupportCrew AnalysisCrew SocialMediaCrew.
Let job_work := run_job_work MarketingCrew SupportCrew AnalysisCrew SocialMediaCrew.

(** The asynchronous branch of [run_crew] (lines 147-157), entered for
    a crew name found in [CREW_MAP]: the job is created and its
    dispatcher thread started.  [uuid4] never repeats an identifier. *)
Definition submit_async (uuid : string) (t_created t_updated : Z)
    (trace crew_name : string) (w : World) : World :=
  let w := with_store (create_job uuid t_created t_updated trace crew_name (store w)).2 w in
  logger_info trace ("Created async job: " +:+ uuid) w.

Inductive step : System → System → Prop :=
  | step_submit s uuid t_created t_updated trace crew_name payload meta :
      uuid ∉ issued s →
      is_Some (crew_map !! crew_name) →
      step s (mkSystem
                (submit_async uuid t_created t_updated trace crew_name (world s))
                (<[uuid := mkTask crew_name payload meta trace Started]> (tasks s))
                ({[uuid]} ∪ issued s))
  | step_begin s id k t :
      tasks s !! id = Some k →
      task_phase k = Started →
      step s (mkSystem
                (run_job_begin id (task_crew k) (task_trace k) t (world s))
                (<[id := mark k]> (tasks s))
                (issued s))
  | step_end s id k t :
      tasks s !! id = Some k →
      task_phase k = Marked →
      step s (mkSystem
                (let (out, w) :=
                   job_work (task_crew k) (task_payload k) (task_meta k)
                            (task_trace k) (world s) in
                 (run_job_end id (task_trace k) out t w).2)
                (delete id (tasks s))
                (issued s))
  | step_sweep s now :
      step s (mkSystem
                (thread_world (cleanup_round job_store_cleanup now (world s)))
                (tasks s) (issued s)).

(** The states of the process. *)
Definition reachable (s : System) : Prop := rtc step System_init s.
End System.

(** Status order of the life cycle: QUEUED, then RUNNING, then DONE or
    FAILED. *)
Definition forward (a b : JobStatus) : bool :=
  match a, b with
  | QUEUED, RUNNING | RUNNING, DONE | RUNNING, FAILED => true
  | _, _ => bool_decide (a = b)
  end.

(* ===================================================================== *)
(** ** Concrete stores, crews and runs used as examples *)
(* ===================================================================== *)

(** A store holding one job, created at clock reading 100. *)
Definition store_one_job : JobStore :=
  (create_job "job-1" 100 100 "trace-1" "marketing" job_store0).2.

(** The same store after the dispatcher's two updates of a successful run. *)
Definition store_done_job : JobStore :=
  (update_job "job-1" (Some DONE) (Some [("output", "ok")]) None 120
     (update_job "job-1" (Some RUNNING) None None 110 store_one_job).2).2.

(** A provider that times out on every call; one whose connection
    fails on the first call only (the state counts the calls); one that
    rejects the request. *)
Definition kickoff_timeout (n : nat) : (Exc + CrewOutput) * nat :=
  (inl (TimeoutError "provider timed out"), S n).
Definition kickoff_invalid (n : nat) : (Exc + CrewOutput) * nat :=
  (inl (ValueError "invalid api key"), S n).

(** Work units: one that returns a result, one whose provider rejects the
    credentials, one whose retries were exhausted by time-outs. *)
Definition crew_ok : WorkUnit := λ _ _ _, inr [("output", "ok")].
Definition crew_fatal : WorkUnit :=
  λ _ _ _, inl (PyExc "AuthenticationError" exception_bases
                      "401 Unauthorized: invalid x-api-key").
Definition crew_exhausted : WorkUnit :=
  λ _ _ _, inl (RetryError (TimeoutError "provider timed out")).

(** A work unit that ends the interpreter: [SystemExit] is a
    [BaseException] but not an [Exception]. *)
Definition crew_exit : WorkUnit :=
  λ _ _ _, inl (PyExc "SystemExit" ["BaseException"; "object"] "1").

(** The process with job-1 in the store and nothing logged yet. *)
Definition world_one_job : World := mkWorld store_one_job [].

(** A sweep that fails, as the reaper would see it. *)
Definition sweep_failing : Sweep :=
  λ _ _, inl (PyExc "RuntimeError" exception_bases "sweep failed").

(* ===================================================================== *)
(** ** The invariant of the process *)
(* ===================================================================== *)

(** What a record holds at each status. *)
Definition well_shaped (j : Job) : Prop :=
  match status j with
  | QUEUED | RUNNING => result j = None ∧ error j = None
  | DONE => is_Some (result j) ∧ error j = None
  | FAILED => is_Some (error j) ∧ result j = None
  end.

(** The status of a record against the phase of its dispatcher thread:
    QUEUED until the thread has made its mark, RUNNING from the mark to
    the final update, and never QUEUED once the thread is gone. *)
Definition agrees (k : option Task) (j : Job) : Prop :=
  match task_phase <$> k with
  | Some Started => status j = QUEUED
  | Some Marked => status j = RUNNING
  | None => status j ≠ QUEUED
  end.

Record invariant (s : System) : Prop := mkInvariant {
  (** every entry of the dictionary points to an allocated Job object
      that carries the entry's key as its [job_id] *)
  inv_owned : ∀ id p, _jobs (store (world s)) !! id = Some p →
                ∃ j, heap (store (world s)) !! p = Some j ∧ job_id j = id;
  inv_shape : ∀ id j, read_job id (store (world s)) = Some j →
                well_shaped j ∧ agrees (tasks s !! id) j;
  (** job ids and thread ids are identifiers [uuid4] has produced *)
  inv_issued : ∀ id, is_Some (_jobs (store (world s)) !! id) ∨ is_Some (tasks s !! id) →
                 id ∈ issued s
}.

(** The process after one asynchronous request for the marketing crew
    was accepted, after its dispatcher thread made the RUNNING mark, and
    after the thread finished with the result of [crew_ok]. *)
Definition system_submitted : System :=
  mkSystem
    (submit_async "job-1" 100 100 "trace-1" "marketing" (world System_init))
    (<["job-1" := mkTask "marketing" [("topic", "x")] None "trace-1" Started]>
       (tasks System_init))
    ({["job-1"]} ∪ issued System_init).

Definition system_running : System :=
  mkSystem
    (run_job_begin "job-1" "marketing" "trace-1" 110 (world system_submitted))
    (<["job-1" := mark (mkTask "marketing" [("topic", "x")] None "trace-1" Started)]>
       (tasks system_submitted))
    (issued system_submitted).

Definition system_done : System :=
  mkSystem
    (let (out, w) :=
       run_job_work crew_ok crew_ok crew_ok crew_ok
         "marketing" [("topic", "x")] None "trace-1" (world system_running) in
     (run_job_end "job-1" "trace-1" out 120 w).2)
    (delete "job-1" (tasks system_running))
    (issued system_running).

(* ===================================================================== *)
(** ** app/core/job_store.py: statistics *)
(* ===================================================================== *)

(** [self._jobs.values()]: the Job objects in the dictionary. *)
Definition stored_jobs (st : JobStore) : list Job :=
  omap (λ it : string * nat, heap st !! it.2) (map_to_list (_jobs st)).

(** One round of the loop of [get_stats]:
    [status_counts[v] = status_counts.get(v, 0) + 1] for
    [v = job.status.value]. *)
Definition count_status (status_counts : gmap string nat) (job : Job)
    : gmap string nat :=
  let v := JobStatus_value (status job) in
  <[v := (default 0%nat (status_counts !! v) + 1)%nat]> status_counts.

(** [JobStore.get_stats]: [{"total": len(self._jobs), **status_counts}];
    in the dictionary display the entries unpacked last win. *)
Definition get_stats (st : JobStore) : gmap string nat :=
  let status_counts := foldl count_status ∅ (stored_jobs st) in
  status_counts ∪ {["total" := size (_jobs st)]}.

(** The number of jobs of a list that have a given status. *)
Definition count_of (s : JobStatus) (l : list Job) : nat :=
  length (filter (λ j, status j = s) l).

(** Every entry of the dictionary refers to an allocated Job object (in
    Python a reference always does). *)
Definition allocated (st : JobStore) : Prop :=
  ∀ id p, _jobs st !! id = Some p → is_Some (heap st !! p).

(** Clock readings that never go back. *)
Fixpoint nondecreasing (clock : list Z) : Prop :=
  match clock with
  | a :: (b :: _) as rest => a ≤ b ∧ nondecreasing rest
  | _ => True
  end.

(** A store with three jobs, one of them RUNNING and one DONE. *)
Definition store_three_jobs : JobStore :=
  (update_job "job-3" (Some RUNNING) None None 140
     (create_job "job-3" 130 130 "trace-3" "support"
        (create_job "job-2" 125 125 "trace-2" "analysis" store_done_job).2).2).2.

(** The process in which a sweep, more than an hour after job-1 was
    created, came while the job was still RUNNING, and the process after
    the dispatcher thread of job-1 then finished. *)
Definition system_swept : System :=
  mkSystem
    (thread_world (cleanup_round job_store_cleanup 4000 (world system_running)))
    (tasks system_running)
    (issued system_running).

Definition system_swept_finished : System :=
  mkSystem
    (let (out, w) :=
       run_job_work crew_ok crew_ok crew_ok crew_ok
         "marketing" [("topic", "x")] None "trace-1" (world system_swept) in
     (run_job_end "job-1" "trace-1" out 4100 w).2)
    (delete "job-1" (tasks system_swept))
    (issued system_swept).

(* ===================================================================== *)
(** ** app/core/config.py *)
(* ===================================================================== *)

(** [Literal["anthropic", "google", "deepseek"]] *)
Inductive Provider : Type := anthropic | google | deepseek.

Definition Provider_value (p : Provider) : string :=
  match p with
  | anthropic => "anthropic"
  | google => "google"
  | deepseek => "deepseek"
  end.

(** [class Settings(BaseSettings)] *)
Record Settings : Type := mkSettings {
  api_key : string;
  default_llm_provider : Provider;
  anthropic_api_key : option string;
  anthropic_model : string;
  google_api_key : option string;
  gemini_model : string;
  deepseek_api_key : option string;
  deepseek_model : string;
  perplexity_api_key : option string;
  perplexity_model : string;
  request_timeout_seconds : Z
}.

(** [Settings()] in an environment that sets the required [api_key] and
    nothing else: every other field has its declared default. *)
Definition Settings_defaults (key : string) : Settings :=
  mkSettings key deepseek
             None "claude-3-5-sonnet-20240620"
             None "gemini-2.0-flash"
             None "deepseek-chat"
             None "sonar-pro"
             90.

(* ===================================================================== *)
(** ** Dictionaries with string values *)
(* ===================================================================== *)

(** A [Dict] lists the items of a dictionary.  [d.get(k)]: *)
Fixpoint dict_get (k : string) (d : Dict) : option string :=
  match d with
  | [] => None
  | (k', v) :: d' => if bool_decide (k' = k) then Some v else dict_get k d'
  end.

(** [meta or {}] *)
Definition meta_or_empty (meta : option Dict) : Dict :=
  match meta with
  | Some (it :: d) => it :: d
  | _ => []
  end.

(** [s.startswith(p)] *)
Definition startswith (s p : string) : bool := String.prefix p s.

(* ===================================================================== *)
(** ** app/crews/marketing_crew.py: the LLM of a crew *)
(* ===================================================================== *)

(** The arguments a [crewai.LLM] is built with; the temperature is kept
    as the decimal written in the source. *)
Record LLM : Type := mkLLM {
  llm_model : string;
  llm_temperature : string;
  llm_timeout : Z
}.

(** [meta.get("llm_provider", settings.default_llm_provider)] *)
Definition resolve_provider (meta : Dict) (settings : Settings) : string :=
  default (Provider_value (default_llm_provider settings)) (dict_get "llm_provider" meta).

(** [f"{p}{model}" if not model.startswith(p) else model] *)
Definition with_prefix (p model : string) : string :=
  if negb (startswith model p) then p +:+ model else model.

(** [_get_crewai_llm] (the same function in the marketing, support and
    analysis crews): the LLM, the provider name and the model name, or
    the [ValueError] for an unknown provider. *)
Definition _get_crewai_llm (meta : option Dict) (settings : Settings)
    : Exc + (LLM * string * string) :=
  let meta := meta_or_empty meta in
  let provider := resolve_provider meta settings in
  if bool_decide (provider = "anthropic") then
    let model := default (anthropic_model settings) (dict_get "model" meta) in
    inr (mkLLM model "0.7" (request_timeout_seconds settings), "anthropic", model)
  else if bool_decide (provider = "google") then
    let model := default (gemini_model settings) (dict_get "model" meta) in
    inr (mkLLM (with_prefix "gemini/" model) "0.7" (request_timeout_seconds settings),
         "google", model)
  else if bool_decide (provider = "deepseek") then
    let model := default (deepseek_model settings) (dict_get "model" meta) in
    inr (mkLLM (with_prefix "deepseek/" model) "0.7" (request_timeout_seconds settings),
         "deepseek", model)
  else inl (ValueError ("Unknown LLM provider: " +:+ provider)).

(* ===================================================================== *)
(** ** app/core/llm_factory.py *)
(* ===================================================================== *)

(** The two wrappers, by the arguments of their constructors. *)
Inductive BaseLLM : Type :=
  | AnthropicLLM (key model : string) (timeout : Z)
  | GeminiLLM (key model : string) (timeout : Z).

(** The truth value of an optional string: [None] and [""] are false. *)
Definition configured (key : option string) : option string :=
  match key with
  | Some (String a s) => Some (String a s)
  | _ => None
  end.

(** [get_llm] *)
Definition get_llm (meta : option Dict) (settings : Settings) : Exc + BaseLLM :=
  let meta := meta_or_empty meta in
  let provider := resolve_provider meta settings in
  let timeout := request_timeout_seconds settings in
  if bool_decide (provider = "anthropic") then
    match configured (anthropic_api_key settings) with
    | None => inl (ValueError "ANTHROPIC_API_KEY is not configured")
    | Some key =>
        let model := default (anthropic_model settings) (dict_get "model" meta) in
        inr (AnthropicLLM key model timeout)
    end
  else if bool_decide (provider = "google") then
    match configured (google_api_key settings) with
    | None => inl (ValueError "GOOGLE_API_KEY is not configured")
    | Some key =>
        let model := default (gemini_model settings) (dict_get "model" meta) in
        inr (GeminiLLM key model timeout)
    end
  else inl (ValueError ("Unknown LLM provider: " +:+ provider)).

(** Requests for a provider by name, with and without a model. *)
Definition meta_google : Dict := [("llm_provider", "google"); ("model", "gemini-1.5-pro")].
Definition meta_unknown : Dict := [("llm_provider", "openai")].

(* ===================================================================== *)
(** ** app/core/security.py *)
(* ===================================================================== *)

(** [fastapi.HTTPException(status_code, detail)] *)
Record HTTPException : Type := mkHTTPException {
  status_code : Z;
  detail : string
}.

Definition HTTP_401_UNAUTHORIZED : Z := 401.
Definition HTTP_404_NOT_FOUND : Z := 404.

(** [require_api_key]: the exception it raises, or [None] when it
    returns. *)
Definition require_api_key (header_value : option string) (settings : Settings)
    : option HTTPException :=
  match header_value with
  | None => Some (mkHTTPException HTTP_401_UNAUTHORIZED "Missing X-API-Key header")
  | Some v =>
      if bool_decide (v ≠ api_key settings)
      then Some (mkHTTPException HTTP_401_UNAUTHORIZED "Invalid API key")
      else None
  end.

(* ===================================================================== *)
(** ** app/main.py: the endpoints *)
(* ===================================================================== *)

(** The values of the response dictionaries. *)
#[warnings="-register-all"]
Inductive PyVal : Type :=
  | PyNone
  | PyBool (b : bool)
  | PyStr (s : string)
  | PyDict (items : list (string * PyVal)).

Definition PyVal_of_Dict (d : Dict) : PyVal :=
  PyDict (map (λ kv : string * string, (kv.1, PyStr kv.2)) d).

(** A [dict | None] attribute. *)
Definition PyVal_of_optional (d : option Dict) : PyVal :=
  match d with
  | Some d => PyVal_of_Dict d
  | None => PyNone
  end.

(** [str(b)] for a boolean. *)
Definition bool_str (b : bool) : string := if b then "True" else "False".

Definition logger_warning (ctx msg : string) (w : World) : World :=
  emit (Log "WARNING" ctx msg) w.

(** The invocations of crews among some events. *)
Definition is_invoke (ev : Event) : bool :=
  match ev with Invoke _ _ _ _ => true | _ => false end.
Definition invocations (evs : list Event) : list Event :=
  filter (λ ev, is_invoke ev = true) evs.

(** What leaves an endpoint instead of a response. *)
Inductive Raise : Type :=
  | HTTP (exc : HTTPException)
  | Uncaught (e : Exc).

(** A handled request: the response or what was raised, the world after
    it, and the dispatcher thread it started, if any (the job id and the
    arguments of [_run_crew_job]). *)
Record Handled : Type := mkHandled {
  response : Raise + PyVal;
  world_after : World;
  started : option (string * Task)
}.

Section Endpoints.
Variables MarketingCrew SupportCrew AnalysisCrew SocialMediaCrew : WorkUnit.

(** [run_crew].  [settings] is what [get_settings()] returns; [trace]
    and [uuid] are the two identifiers drawn from [uuid4], for the
    request and for the job; [t_created], [t_updated] are the clock
    readings of [create_job].  In the synchronous branch the crew object
    is built before "Running crew" is logged; its constructor only
    reads the cached settings, which this request has already obtained,
    so the work unit's outcome is that of [run]. *)
Definition run_crew (crew_name : string) (request_input : Dict)
    (request_meta : option Dict) (x_api_key : option string) (async_mode : bool)
    (settings : Settings) (trace uuid : string) (t_created t_updated : Z)
    (w : World) : Handled :=
  let ctx := set_trace_id trace in
  let w := logger_info ctx ("Received request for crew: " +:+ crew_name +:+
                            " (async=" +:+ bool_str async_mode +:+ ")") w in
  match require_api_key x_api_key settings with
  | Some exc => mkHandled (inl (HTTP exc)) w None
  | None =>
      match CREW_MAP MarketingCrew SupportCrew AnalysisCrew SocialMediaCrew !! crew_name with
      | None =>
          let w := logger_warning ctx ("Crew not found: " +:+ crew_name) w in
          mkHandled
            (inr (PyDict [("ok", PyBool false);
                          ("crew", PyStr crew_name);
                          ("trace_id", PyStr trace);
                          ("error", PyDict [("code", PyStr "CREW_NOT_FOUND");
                                            ("message", PyStr ("Crew '" +:+ crew_name +:+
                                                               "' not found"))])]))
            w None
      | Some crew_class =>
          if async_mode then
            let w := submit_async uuid t_created t_updated trace crew_name w in
            mkHandled
              (inr (PyDict [("ok", PyBool true);
                            ("trace_id", PyStr trace);
                            ("crew", PyStr crew_name);
                            ("job_id", PyStr uuid)]))
              w
              (Some (uuid, mkTask crew_name request_input request_meta trace Started))
          else
            let w := logger_info ctx ("Running crew: " +:+ crew_name) w in
            let w := emit (Invoke crew_name request_input request_meta trace) w in
            match crew_class request_input request_meta trace with
            | inr result =>
                let w := logger_info ctx ("Crew " +:+ crew_name +:+
                                          " completed successfully") w in
                mkHandled
                  (inr (PyDict [("ok", PyBool true);
                                ("crew", PyStr crew_name);
                                ("trace_id", PyStr trace);
                                ("result", PyVal_of_Dict result);
                                ("error", PyNone)]))
                  w None
            | inl e =>
                if isinstance e "Exception" then
                  let w := logger_error ctx ("Crew " +:+ crew_name +:+ " failed: " +:+
                                             type_name e) w in
                  mkHandled
                    (inr (PyDict [("ok", PyBool false);
                                  ("crew", PyStr crew_name);
                                  ("trace_id", PyStr trace);
                                  ("result", PyNone);
                                  ("error", PyVal_of_Dict EXECUTION_ERROR)]))
                    w None
                else mkHandled (inl (Uncaught e)) w None
            end
      end
  end.
End Endpoints.

(** The endpoint [get_job] of main.py ([GET /jobs/{job_id}]): the
    store's [get_job], then the attributes of the Job object it
    returned. *)
Definition main_get_job (id : string) (x_api_key : option string)
    (settings : Settings) (w : World) : HTTPException + PyVal :=
  match require_api_key x_api_key settings with
  | Some exc => inl exc
  | None =>
      match read_job id (store w) with
      | None => inl (mkHTTPException HTTP_404_NOT_FOUND ("Job '" +:+ id +:+ "' not found"))
      | Some job =>
          inr (PyDict [("ok", PyBool true);
                       ("job_id", PyStr (job_id job));
                       ("status", PyStr (JobStatus_value (status job)));
                       ("crew", PyStr (crew job));
                       ("trace_id", PyStr (trace_id job));
                       ("result", PyVal_of_optional (result job));
                       ("error", PyVal_of_optional (error job))])
      end
  end.

(** The settings of a deployment whose API key is "secret". *)
Definition settings_secret : Settings := Settings_defaults "secret".

(* ===================================================================== *)
(** ** app/crews: the crews with one agent and one task *)
(* ===================================================================== *)

(** The arguments the CrewAI objects are built with. *)
Record Agent : Type := mkAgent {
  agent_role : string;
  agent_goal : string;
  agent_backstory : string;
  agent_llm : LLM;
  agent_verbose : bool
}.

Record CrewTask : Type := mkCrewTask {
  ct_description : string;
  ct_expected_output : string;
  ct_agent : Agent
}.

Record Crew : Type := mkCrew {
  crew_agents : list Agent;
  crew_tasks : list CrewTask;
  crew_verbose : bool
}.

(** marketing_crew.py, support_crew.py and analysis_crew.py are one
    program text up to the names and strings collected here: the
    required and the optional field of the payload with the default of
    the latter, the texts of the agent and the task (those with [f]
    prefix as functions of the two field values), and the workflow
    name. *)
Record CrewText : Type := mkCrewText {
  required_field : string;
  optional_field : string;
  optional_default : string;
  role : string;
  goal : string → string → string;
  backstory : string;
  description : string → string → string;
  expected_output : string;
  workflow : string
}.

Definition marketing_text : CrewText :=
  mkCrewText "topic" "target_audience" "general audience"
    "Marketing Specialist"
    (λ topic _, "Create compelling marketing content about " +:+ topic)
    "You are an experienced marketing specialist with expertise in creating engaging content that resonates with target audiences."
    (λ topic target_audience,
       "Create a short marketing message about '" +:+ topic +:+ "' for " +:+
       target_audience +:+ ". Keep it concise and engaging.")
    "A compelling marketing message (2-3 sentences)"
    "marketing".

Definition support_text : CrewText :=
  mkCrewText "issue" "customer_context" "general customer"
    "Customer Support Specialist"
    (λ issue _, "Provide helpful and empathetic support for: " +:+ issue)
    "You are a skilled customer support specialist known for resolving issues quickly while maintaining excellent customer relationships."
    (λ issue customer_context,
       "Draft a helpful response to this customer issue: '" +:+ issue +:+
       "'. Context: " +:+ customer_context +:+ ". Be empathetic and solution-oriented.")
    "A helpful customer support response (2-4 sentences)"
    "support".

Definition analysis_text : CrewText :=
  mkCrewText "data_description" "analysis_goal" "identify key insights"
    "Data Analyst"
    (λ _ analysis_goal, "Analyze data and " +:+ analysis_goal)
    "You are an expert data analyst with strong skills in pattern recognition and deriving actionable insights from complex data."
    (λ data_description analysis_goal,
       "Analyze the following data: '" +:+ data_description +:+ "'. Goal: " +:+
       analysis_goal +:+ ". Provide a concise analysis with key findings.")
    "A brief analysis with 2-3 key insights"
    "analysis".

(** What a call of [run] did: what it returned or raised, how often it
    invoked [kickoff], and the state the invocations left. *)
Record Ran (W : Type) : Type := mkRan {
  ran : Exc + PyVal;
  kickoffs : nat;
  ran_state : W
}.
Arguments mkRan {W}.
Arguments ran {W}.
Arguments kickoffs {W}.
Arguments ran_state {W}.

Section CrewRun.
Context {W : Type}.
(** [Crew.kickoff] of the crew built. *)
Variable kickoff : Crew → W → (Exc + CrewOutput) * W.

(** The crew object [run] builds from the two field values and the LLM. *)
Definition build_crew (text : CrewText) (required optional : string) (llm : LLM) : Crew :=
  let agent := mkAgent (role text) (goal text required optional) (backstory text)
                       llm false in
  let task := mkCrewTask (description text required optional) (expected_output text)
                         agent in
  mkCrew [agent] [task] false.

(** [MarketingCrew.run], [SupportCrew.run], [AnalysisCrew.run], for a
    payload with string values; [settings] is [self.settings]. *)
Definition crew_run (text : CrewText) (settings : Settings)
    (payload : Dict) (meta : option Dict) (trace : string) (w : W)
    : option (Ran W) :=
  match dict_get (required_field text) payload with
  | None =>
      Some (mkRan (inl (ValueError ("payload must contain '" +:+ required_field text +:+
                                    "' field"))) 0 w)
  | Some required =>
      let optional :=
        default (optional_default text) (dict_get (optional_field text) payload) in
      match _get_crewai_llm meta settings with
      | inl e => Some (mkRan (inl e) 0 w)
      | inr (llm, provider, model) =>
          let crew := build_crew text required optional llm in
          match _execute_crew (kickoff crew) w with
          | None => None
          | Some called =>
              match tenacity.outcome called with
              | inl e => Some (mkRan (inl e) (tenacity.calls called) (tenacity.after called))
              | inr output =>
                  Some (mkRan
                          (inr (PyDict
                                  [("workflow", PyStr (workflow text));
                                   ("trace_id", PyStr trace);
                                   ("provider", PyStr provider);
                                   ("model", PyStr model);
                                   ("output", PyStr output);
                                   ("input_summary",
                                    PyDict [(required_field text, PyStr required);
                                            (optional_field text, PyStr optional)])]))
                          (tenacity.calls called) (tenacity.after called))
              end
          end
      end
  end.
End CrewRun.

(** A kickoff that answers with the description of the crew's task. *)
Definition kickoff_echo (crew : Crew) (n : nat) : (Exc + CrewOutput) * nat :=
  (inr (mkCrewOutput
          (Some (default "" (ct_description <$> head (crew_tasks crew)))) ""), S n).

(* ===================================================================== *)
(** ** app/crews/social_media_crew.py: the two LLMs *)
(* ===================================================================== *)

(** [_get_gemini_llm] *)
Definition _get_gemini_llm (settings : Settings) : LLM :=
  mkLLM ("gemini/" +:+ gemini_model settings) "0.7" (request_timeout_seconds settings).

(** [_get_perplexity_llm] *)
Definition _get_perplexity_llm (settings : Settings) : LLM :=
  mkLLM ("perplexity/" +:+ perplexity_model settings) "0.5"
        (request_timeout_seconds settings).

(** A request that names google and leaves the model to the settings. *)
Definition meta_google_only : Dict := [("llm_provider", "google")].

(** Settings whose Gemini model is configured with its prefix. *)
Definition settings_prefixed : Settings :=
  mkSettings "secret" deepseek None "claude-3-5-sonnet-20240620"
             None "gemini/gemini-2.0-flash" None "deepseek-chat" None "sonar-pro" 90.

(* ===================================================================== *)
(** * Properties *)
(* ===================================================================== *)

(** ** The store operations on the heap *)

Lemma apply_update_status ns nr ne now j :
  status (apply_update ns nr ne now j) = default (status j) ns.
Proof. by destruct ns, nr, ne. Qed.

Lemma apply_update_result ns nr ne now j :
  result (apply_update ns nr ne now j) =
    match nr with Some r => Some r | None => result j end.
Proof. by destruct ns, nr, ne. Qed.

Lemma apply_update_error ns nr ne now j :
  error (apply_update ns nr ne now j) =
    match ne with Some e => Some e | None => error j end.
Proof. by destruct ns, nr, ne. Qed.

Lemma apply_update_frame ns nr ne now j :
  job_id (apply_update ns nr ne now j) = job_id j ∧
  trace_id (apply_update ns nr ne now j) = trace_id j ∧
  crew (apply_update ns nr ne now j) = crew j ∧
  created_at (apply_update ns nr ne now j) = created_at j ∧
  updated_at (apply_update ns nr ne now j) = now.
Proof. by destruct ns, nr, ne. Qed.

Lemma update_job_unknown id ns nr ne now st :
  _jobs st !! id = None → update_job id ns nr ne now st = (None, st).
Proof. intros H. unfold update_job. by rewrite H. Qed.

Lemma update_job_known id ns nr ne now st p :
  _jobs st !! id = Some p →
  update_job id ns nr ne now st =
    (Some p, mkJobStore (alter (apply_update ns nr ne now) p (heap st))
                        (_jobs st) (_ttl_seconds st)).
Proof. intros H. unfold update_job. by rewrite H. Qed.

Lemma update_job_jobs id ns nr ne now st :
  _jobs (update_job id ns nr ne now st).2 = _jobs st.
Proof. unfold update_job. by destruct (_jobs st !! id). Qed.

Lemma update_job_ttl id ns nr ne now st :
  _ttl_seconds (update_job id ns nr ne now st).2 = _ttl_seconds st.
Proof. unfold update_job. by destruct (_jobs st !! id). Qed.

Lemma update_job_heap_length id ns nr ne now st :
  length (heap (update_job id ns nr ne now st).2) = length (heap st).
Proof.
  unfold update_job. destruct (_jobs st !! id); simpl; [|done].
  apply length_alter.
Qed.

(** The cell of the job is rewritten by [apply_update]; every other cell
    is kept. *)
Lemma update_job_heap id ns nr ne now st q :
  heap (update_job id ns nr ne now st).2 !! q =
    if decide (_jobs st !! id = Some q)
    then apply_update ns nr ne now <$> heap st !! q
    else heap st !! q.
Proof.
  unfold update_job. destruct (_jobs st !! id) as [p|] eqn:Hp; simpl.
  - case_decide as Hq.
    + inversion Hq; subst. apply list_lookup_alter_eq.
    + apply list_lookup_alter_ne. congruence.
  - done.
Qed.

(** ** The sweep *)

Lemma lookup_foldl_delete {V} (ks : list string) (m : gmap string V) k :
  foldl (λ m id, delete id m) m ks !! k = if decide (k ∈ ks) then None else m !! k.
Proof.
  revert m. induction ks as [|a ks IH]; intros m; simpl.
  - destruct (decide (k ∈ [])) as [H|]; [by apply elem_of_nil in H | done].
  - rewrite IH. destruct (decide (k = a)) as [->|Hne].
    + rewrite lookup_delete_eq.
      destruct (decide (a ∈ a :: ks)) as [|Hn]; [by case_decide|].
      exfalso. apply Hn. left.
    + rewrite lookup_delete_ne by done.
      case_decide as H1; case_decide as H2; try done.
      * exfalso. apply H2. by right.
      * apply elem_of_cons in H2 as [?|?]; done.
Qed.

Lemma size_foldl_delete {V} (ks : list string) (m : gmap string V) :
  NoDup ks → (∀ k, k ∈ ks → is_Some (m !! k)) →
  (size (foldl (λ m id, delete id m) m ks) + length ks = size m)%nat.
Proof.
  revert m. induction ks as [|a ks IH]; intros m Hnd Hin; simpl; [lia|].
  apply NoDup_cons in Hnd as [Ha Hnd].
  rewrite Nat.add_succ_r, IH; [| done |].
  - destruct (Hin a) as [x Hx]; [by left|].
    rewrite (map_size_delete_Some a m) by eauto.
    assert (size m ≠ 0)%nat; [|lia].
    apply map_size_non_empty_iff. intros ->. by rewrite lookup_empty in Hx.
  - intros k Hk. rewrite lookup_delete_ne; [apply Hin; by right|].
    intros ->. done.
Qed.

Lemma elem_of_old_job_ids cutoff st id :
  id ∈ old_job_ids cutoff st ↔
  ∃ p, _jobs st !! id = Some p ∧ is_old st cutoff (id, p) = true.
Proof.
  unfold old_job_ids. rewrite list_elem_of_fmap. split.
  - intros [[k p] [-> H]]. apply list_elem_of_filter in H as [Hold Hin].
    apply elem_of_map_to_list in Hin. eauto.
  - intros (p & Hp & Hold). exists (id, p). split; [done|].
    apply list_elem_of_filter. split; [done|]. by apply elem_of_map_to_list.
Qed.

Lemma NoDup_old_job_ids cutoff st : NoDup (old_job_ids cutoff st).
Proof.
  unfold old_job_ids.
  eapply sublist_NoDup; [apply (NoDup_fst_map_to_list (_jobs st))|].
  apply fmap_sublist, sublist_filter.
Qed.

Lemma cleanup_old_jobs_unfold now st :
  cleanup_old_jobs now st =
    (length (old_job_ids (now - _ttl_seconds st) st),
     mkJobStore (heap st)
       (foldl (λ m id, delete id m) (_jobs st) (old_job_ids (now - _ttl_seconds st) st))
       (_ttl_seconds st)).
Proof. reflexivity. Qed.

(** The dictionary after a sweep: an entry is dropped exactly when its
    job is older than the cutoff. *)
Lemma cleanup_old_jobs_lookup now st id :
  _jobs (cleanup_old_jobs now st).2 !! id =
    match _jobs st !! id with
    | Some p => if is_old st (now - _ttl_seconds st) (id, p) then None else Some p
    | None => None
    end.
Proof.
  rewrite cleanup_old_jobs_unfold; simpl. rewrite lookup_foldl_delete.
  case_decide as Hin.
  - apply elem_of_old_job_ids in Hin as (p & -> & ->). done.
  - destruct (_jobs st !! id) as [p|] eqn:Hp; [|done].
    destruct (is_old st (now - _ttl_seconds st) (id, p)) eqn:Hold; [|done].
    exfalso. apply Hin, elem_of_old_job_ids. eauto.
Qed.

Lemma cleanup_old_jobs_heap now st : heap (cleanup_old_jobs now st).2 = heap st.
Proof. reflexivity. Qed.

Lemma cleanup_old_jobs_ttl now st :
  _ttl_seconds (cleanup_old_jobs now st).2 = _ttl_seconds st.
Proof. reflexivity. Qed.

Lemma is_old_mono st c1 c2 it : c1 ≤ c2 → is_old st c1 it = true → is_old st c2 it = true.
Proof.
  unfold is_old. intros Hle. destruct (heap st !! it.2); [|done].
  rewrite !bool_decide_eq_true. lia.
Qed.

(** After a sweep at [now], a sweep whose clock reading is not later
    finds nothing to remove. *)
Lemma cleanup_old_jobs_again now now2 st :
  now2 ≤ now →
  cleanup_old_jobs now2 (cleanup_old_jobs now st).2 = (0%nat, (cleanup_old_jobs now st).2).
Proof.
  intros Hle. set (st' := (cleanup_old_jobs now st).2).
  assert (old_job_ids (now2 - _ttl_seconds st') st' = []) as Hnil.
  { destruct (old_job_ids _ st') as [|k ks] eqn:E; [done|]. exfalso.
    assert (k ∈ old_job_ids (now2 - _ttl_seconds st') st') as Hk by (rewrite E; left).
    apply elem_of_old_job_ids in Hk as (p & Hp & Hold).
    subst st'. rewrite cleanup_old_jobs_lookup in Hp.
    destruct (_jobs st !! k) as [p'|]; [|done].
    destruct (is_old st (now - _ttl_seconds st) (k, p')) eqn:Hold'; [done|].
    inversion Hp; subst p'.
    apply (is_old_mono _ _ (now - _ttl_seconds st)) in Hold.
    - unfold is_old in *. rewrite cleanup_old_jobs_heap in Hold. congruence.
    - rewrite cleanup_old_jobs_ttl. lia. }
  clearbody st'. rewrite cleanup_old_jobs_unfold, Hnil. simpl. by destruct st'.
Qed.

Lemma read_job_unfold id st :
  read_job id st = _jobs st !! id ≫= (λ p, heap st !! p).
Proof. reflexivity. Qed.

(** What a reader sees after a sweep. *)
Lemma read_job_after_cleanup now st id :
  read_job id (cleanup_old_jobs now st).2 =
    match read_job id st with
    | Some j => if bool_decide (created_at j < now - _ttl_seconds st) then None else Some j
    | None => None
    end.
Proof.
  rewrite !read_job_unfold.
  rewrite cleanup_old_jobs_lookup, cleanup_old_jobs_heap.
  destruct (_jobs st !! id) as [p|]; simpl; [|done].
  unfold is_old; simpl.
  destruct (heap st !! p) as [j|] eqn:Hj; simpl; [|by rewrite Hj].
  destruct (bool_decide (created_at j < now - _ttl_seconds st)); simpl;
    [done|by rewrite Hj].
Qed.

Lemma cleanup_old_jobs_count now st :
  ((cleanup_old_jobs now st).1 + size (_jobs (cleanup_old_jobs now st).2)
   = size (_jobs st))%nat.
Proof.
  rewrite cleanup_old_jobs_unfold. simpl.
  rewrite Nat.add_comm. apply size_foldl_delete.
  - apply NoDup_old_job_ids.
  - intros k Hk. apply elem_of_old_job_ids in Hk as (p & Hp & _). eauto.
Qed.

Lemma JobStore_eq st1 st2 :
  heap st1 = heap st2 → _jobs st1 = _jobs st2 → _ttl_seconds st1 = _ttl_seconds st2 →
  st1 = st2.
Proof. destruct st1, st2; simpl. by intros -> -> ->. Qed.

(** A sweep absorbs an earlier one. *)
Lemma cleanup_old_jobs_absorb now1 now2 st :
  now1 ≤ now2 →
  (cleanup_old_jobs now2 (cleanup_old_jobs now1 st).2).2 = (cleanup_old_jobs now2 st).2.
Proof.
  intros Hle. apply JobStore_eq; [done| |done].
  apply map_eq. intros id. rewrite !cleanup_old_jobs_lookup.
  rewrite cleanup_old_jobs_ttl.
  destruct (_jobs st !! id) as [p|]; [|done].
  destruct (is_old st (now1 - _ttl_seconds st) (id, p)) eqn:H1; [|done].
  apply (is_old_mono _ _ (now2 - _ttl_seconds st)) in H1; [|lia].
  by rewrite H1.
Qed.

(** A sweep returns 0 exactly when no record of the store is older
    than the TTL at its clock reading. *)
Lemma cleanup_old_jobs_zero now st :
  (cleanup_old_jobs now st).1 = 0%nat ↔
  ∀ id j, read_job id st = Some j → now - _ttl_seconds st ≤ created_at j.
Proof.
  rewrite cleanup_old_jobs_unfold. cbn [fst]. rewrite length_zero_iff_nil. split.
  - intros Hnil id j Hj.
    destruct (decide (created_at j < now - _ttl_seconds st)) as [Hold|]; [|lia].
    exfalso. rewrite read_job_unfold in Hj.
    destruct (_jobs st !! id) as [p|] eqn:Hp; [|done]. simpl in Hj.
    assert (id ∈ old_job_ids (now - _ttl_seconds st) st) as Hin.
    { apply elem_of_old_job_ids. exists p. split; [done|].
      unfold is_old. simpl. rewrite Hj. by apply bool_decide_eq_true_2. }
    rewrite Hnil in Hin. by apply elem_of_nil in Hin.
  - intros Hall.
    destruct (old_job_ids (now - _ttl_seconds st) st) as [|k ks] eqn:E; [done|].
    exfalso.
    assert (k ∈ old_job_ids (now - _ttl_seconds st) st) as Hk by (rewrite E; left).
    apply elem_of_old_job_ids in Hk as (p & Hp & Hold).
    unfold is_old in Hold. simpl in Hold.
    destruct (heap st !! p) as [j|] eqn:Hj; [|done].
    apply bool_decide_eq_true_1 in Hold.
    assert (read_job k st = Some j) as Hr.
    { rewrite read_job_unfold, Hp. simpl. done. }
    apply Hall in Hr. lia.
Qed.

(** C9 (as stated, refuted).  Each sweep reads the clock itself.  On the
    store whose only job was created at 100, with a TTL of 3600, a sweep
    at 3700 removes nothing and returns 0, and the sweep that follows it
    at once, one tick later and with no job created in between, removes
    the job and returns 1. *)
Lemma cleanup_old_jobs_second_sweep_removes :
  (cleanup_old_jobs 3700 store_one_job).1 = 0%nat ∧
  (cleanup_old_jobs 3701 (cleanup_old_jobs 3700 store_one_job).2).1 = 1%nat ∧
  read_job "job-1" (cleanup_old_jobs 3701 (cleanup_old_jobs 3700 store_one_job).2).2
    = None.
Proof. split_and!; vm_compute; reflexivity. Qed.

(** C9 (amended).  A sweep at clock reading [now] removes exactly the
    records whose [created_at] is below [now - ttl], whatever their
    status, and keeps every other record as it is; the number it returns
    is the number of entries that left the dictionary.  A second sweep
    with no job created in between takes its own clock reading [now2]:
    it returns 0 exactly when no remaining record is older than the TTL
    at [now2], which is so in particular when the clock has not advanced
    past the first reading; then it changes nothing. *)
Theorem cleanup_old_jobs_removes_exactly_expired now now2 st :
  let cutoff := now - _ttl_seconds st in
  let n := (cleanup_old_jobs now st).1 in
  let st' := (cleanup_old_jobs now st).2 in
  (∀ id, read_job id st' =
         match read_job id st with
         | Some j => if bool_decide (created_at j < cutoff) then None else Some j
         | None => None
         end) ∧
  heap st' = heap st ∧
  (n + size (_jobs st') = size (_jobs st))%nat ∧
  (now2 ≤ now → cleanup_old_jobs now2 st' = (0%nat, st')) ∧
  ((cleanup_old_jobs now2 st').1 = 0%nat ↔
   ∀ id j, read_job id st' = Some j → now2 - _ttl_seconds st ≤ created_at j).
Proof.
  intros cutoff n st'. split_and!.
  - intros id. apply read_job_after_cleanup.
  - done.
  - apply cleanup_old_jobs_count.
  - intros Hle. by apply cleanup_old_jobs_again.
  - subst st'. rewrite cleanup_old_jobs_zero. by rewrite cleanup_old_jobs_ttl.
Qed.

(** C10 (as stated, refuted).  What [update_job] returns is not a
    snapshot: it is the Job object the store holds.  After an update of
    job-1 to RUNNING, a caller's assignment [job.status = DONE] through
    the returned reference changes the record the store holds. *)
Lemma update_job_returns_shared_reference :
  (update_job "job-1" (Some RUNNING) None None 110 store_one_job).1 = Some 0%nat ∧
  status <$> read_job "job-1"
               (update_job "job-1" (Some RUNNING) None None 110 store_one_job).2
    = Some RUNNING ∧
  status <$> read_job "job-1"
               (external_write 0 (set_status DONE)
                  (update_job "job-1" (Some RUNNING) None None 110 store_one_job).2)
    = Some DONE.
Proof. split_and!; vm_compute; reflexivity. Qed.

(** C10 (amended).  For a job id in the store, [update_job] returns the
    reference to the Job object the store holds (not a snapshot: a later
    assignment through it changes the stored record); in that object
    each of status, result and error has the value passed, or its old
    value when the argument was omitted; [updated_at] is the clock
    reading; identifier, trace id, crew and [created_at] are as before;
    the dictionary and every other record are untouched.  For an id not
    in the store it returns [None] and the store is unchanged. *)
Theorem update_job_applies_only_provided id ns nr ne now st :
  (∀ p j, get_job id st = Some p → deref p st = Some j →
     let st' := (update_job id ns nr ne now st).2 in
     (update_job id ns nr ne now st).1 = Some p ∧
     ∃ j', deref p st' = Some j' ∧
       status j' = match ns with Some s => s | None => status j end ∧
       result j' = match nr with Some r => Some r | None => result j end ∧
       error j' = match ne with Some e => Some e | None => error j end ∧
       updated_at j' = now ∧
       job_id j' = job_id j ∧ trace_id j' = trace_id j ∧ crew j' = crew j ∧
       created_at j' = created_at j ∧
       _jobs st' = _jobs st ∧ _ttl_seconds st' = _ttl_seconds st ∧
       (∀ q, q ≠ p → deref q st' = deref q st) ∧
       get_job id st' = Some p ∧
       (∀ f : Job → Job, read_job id (external_write p f st') = Some (f j'))) ∧
  (get_job id st = None → update_job id ns nr ne now st = (None, st)).
Proof.
  split.
  - unfold get_job, deref. intros p j Hp Hj. cbv zeta.
    split; [by rewrite (update_job_known _ _ _ _ _ _ p)|].
    exists (apply_update ns nr ne now j).
    rewrite update_job_heap, decide_True, Hj by done.
    rewrite apply_update_status, apply_update_result, apply_update_error.
    destruct (apply_update_frame ns nr ne now j) as (-> & -> & -> & -> & ->).
    rewrite update_job_jobs, update_job_ttl.
    split_and!; try done.
    + intros q Hq. rewrite update_job_heap, decide_False; [done|congruence].
    + intros f. rewrite read_job_unfold. simpl. rewrite update_job_jobs, Hp. simpl.
      by rewrite list_lookup_alter_eq, update_job_heap, decide_True, Hj.
  - apply update_job_unknown.
Qed.

Lemma cleanup_old_jobs_removes_exactly_expired_witness :
  (3700 ≤ 3700) ∧
  read_job "job-1" (cleanup_old_jobs 3701 store_one_job).2 = None ∧
  is_Some (read_job "job-1" (cleanup_old_jobs 3700 store_one_job).2) ∧
  cleanup_old_jobs 3700 (cleanup_old_jobs 3700 store_one_job).2
    = (0%nat, (cleanup_old_jobs 3700 store_one_job).2) ∧
  (cleanup_old_jobs 3701 (cleanup_old_jobs 3701 store_one_job).2).1 = 0%nat.
Proof.
  split; [lia|].
  destruct (cleanup_old_jobs_removes_exactly_expired 3700 3700 store_one_job)
    as (Hread & _ & _ & Hagain & _).
  destruct (cleanup_old_jobs_removes_exactly_expired 3701 3701 store_one_job)
    as (Hread' & _ & _ & _ & Hzero).
  split; [by rewrite Hread'|]. split; [by rewrite Hread|].
  split; [apply Hagain; lia|].
  apply Hzero. intros id j. rewrite Hread'.
  destruct (read_job id store_one_job) as [j0|]; [|done].
  case_bool_decide; [done|]. intros [= <-]. lia.
Defined.

Lemma update_job_applies_only_provided_witness :
  get_job "job-1" store_one_job = Some 0%nat ∧
  deref 0 store_one_job
    = Some (mkJob "job-1" "trace-1" "marketing" QUEUED None None 100 100) ∧
  (update_job "job-1" (Some RUNNING) None None 110 store_one_job).1 = Some 0%nat ∧
  get_job "job-2" store_one_job = None ∧
  update_job "job-2" (Some RUNNING) None None 110 store_one_job = (None, store_one_job).
Proof.
  destruct (update_job_applies_only_provided "job-1" (Some RUNNING) None None 110
              store_one_job) as [Hknown _].
  destruct (update_job_applies_only_provided "job-2" (Some RUNNING) None None 110
              store_one_job) as [_ Hunknown].
  assert (get_job "job-1" store_one_job = Some 0%nat) as Hp by (vm_compute; reflexivity).
  assert (deref 0 store_one_job
          = Some (mkJob "job-1" "trace-1" "marketing" QUEUED None None 100 100)) as Hj
    by (vm_compute; reflexivity).
  assert (get_job "job-2" store_one_job = None) as Hno by (vm_compute; reflexivity).
  split; [exact Hp|]. split; [exact Hj|].
  split; [exact (proj1 (Hknown _ _ Hp Hj))|]. split; [exact Hno|].
  exact (Hunknown Hno).
Defined.

(** ** References handed out by the store *)

(** C2 (as stated, refuted).  [get_job] returns the address under which
    the store itself keeps the job (the same one [create_job] returned):
    a caller's assignment [job.status = DONE] through it changes what
    the store holds for the id. *)
Lemma get_job_returns_shared_reference :
  (create_job "job-1" 100 100 "trace-1" "marketing" job_store0).1 = 0%nat ∧
  get_job "job-1" store_one_job = Some 0%nat ∧
  status <$> read_job "job-1" store_one_job = Some QUEUED ∧
  status <$> read_job "job-1" (external_write 0 (set_status DONE) store_one_job)
    = Some DONE.
Proof. repeat split. Qed.

(** C2 (amended).  [get_job] and [create_job] return a reference to the
    Job object the store holds, not a copy: after a caller's assignment
    through the returned reference the store still maps the id to the
    same object, and reading the id yields the assigned record. *)
Theorem get_job_create_job_share_the_record :
  (∀ id st p j (f : Job → Job),
     get_job id st = Some p → deref p st = Some j →
     get_job id (external_write p f st) = Some p ∧
     read_job id (external_write p f st) = Some (f j)) ∧
  (∀ uuid t1 t2 trace crew_name st (f : Job → Job),
     let p := (create_job uuid t1 t2 trace crew_name st).1 in
     let st' := (create_job uuid t1 t2 trace crew_name st).2 in
     let job := mkJob uuid trace crew_name QUEUED None None t1 t2 in
     get_job uuid st' = Some p ∧
     read_job uuid st' = Some job ∧
     read_job uuid (external_write p f st') = Some (f job)).
Proof.
  split.
  - unfold get_job, deref. intros id st p j f Hp Hj.
    split; [done|]. rewrite read_job_unfold; simpl. rewrite Hp; simpl.
    by rewrite list_lookup_alter_eq, Hj.
  - intros uuid t1 t2 trace crew_name st f. cbv zeta.
    rewrite !read_job_unfold. unfold get_job; simpl.
    rewrite lookup_insert_eq; simpl.
    rewrite list_lookup_alter_eq.
    rewrite lookup_app_r, Nat.sub_diag by done. done.
Qed.

Lemma get_job_create_job_share_the_record_witness :
  get_job "job-1" store_one_job = Some 0%nat ∧
  is_Some (deref 0 store_one_job) ∧
  status <$> read_job "job-1" (external_write 0 (set_status FAILED) store_one_job)
    = Some FAILED.
Proof.
  split; [reflexivity|]. split; [by eexists|].
  destruct get_job_create_job_share_the_record as [Hget _].
  destruct (Hget "job-1" store_one_job 0%nat
              (mkJob "job-1" "trace-1" "marketing" QUEUED None None 100 100)
              (set_status FAILED)) as [_ ->]; reflexivity.
Defined.

(** ** The retry decorator *)

Lemma execute_crew_stop_1 : tenacity.stop execute_crew_retry 1 = false.
Proof. reflexivity. Qed.
Lemma execute_crew_stop_2 : tenacity.stop execute_crew_retry 2 = true.
Proof. reflexivity. Qed.
Lemma execute_crew_wait_1 : tenacity.wait execute_crew_retry 1 = 2.
Proof. reflexivity. Qed.

(** The decorated call, with the two rounds of the loop written out. *)
Lemma execute_crew_unfold {W} (kickoff : W → (Exc + CrewOutput) * W) w :
  _execute_crew kickoff w =
    let (o1, w1) := execute_crew_body kickoff w in
    match o1 with
    | inr r => Some (tenacity.mkCalled (inr r) 1 [] w1)
    | inl e1 =>
        if negb (try_again e1 || transient e1)
        then Some (tenacity.mkCalled (inl e1) 1 [] w1)
        else
          let (o2, w2) := execute_crew_body kickoff w1 in
          match o2 with
          | inr r => Some (tenacity.mkCalled (inr r) 2 [2] w2)
          | inl e2 =>
              Some (tenacity.mkCalled
                      (inl (if negb (try_again e2 || transient e2)
                            then e2 else RetryError e2)) 2 [2] w2)
          end
    end.
Proof.
  unfold _execute_crew, tenacity.call. cbn [tenacity.attempt_loop].
  destruct (execute_crew_body kickoff w) as [[e1|r] w1]; [|done].
  change (tenacity.retry execute_crew_retry e1) with (transient e1).
  change (isinstance e1 "TryAgain") with (try_again e1).
  destruct (negb (try_again e1 || transient e1)); [done|].
  rewrite execute_crew_stop_1.
  destruct (execute_crew_body kickoff w1) as [[e2|r] w2]; [|done].
  change (tenacity.retry execute_crew_retry e2) with (transient e2).
  change (isinstance e2 "TryAgain") with (try_again e2).
  destruct (negb (try_again e2 || transient e2)); [done|].
  by rewrite execute_crew_stop_2.
Qed.

(** Two rounds are all the loop ever runs: the decorated call always
    returns or raises. *)
Lemma execute_crew_total {W} (kickoff : W → (Exc + CrewOutput) * W) w :
  ∃ res, _execute_crew kickoff w = Some res ∧ (1 ≤ tenacity.calls res ≤ 2)%nat.
Proof.
  rewrite execute_crew_unfold.
  destruct (execute_crew_body kickoff w) as [[e1|r] w1]; [|eexists; split; [done|simpl; lia]].
  destruct (negb (try_again e1 || transient e1)); [eexists; split; [done|simpl; lia]|].
  destruct (execute_crew_body kickoff w1) as [[e2|r] w2];
    eexists; (split; [done|simpl; lia]).
Qed.

Lemma execute_crew_body_raise {W} (kickoff : W → (Exc + CrewOutput) * W) w e w1 :
  kickoff w = (inl e, w1) → execute_crew_body kickoff w = (inl e, w1).
Proof. intros H. unfold execute_crew_body. by rewrite H. Qed.

Lemma execute_crew_body_return {W} (kickoff : W → (Exc + CrewOutput) * W) w r w1 :
  kickoff w = (inr r, w1) → execute_crew_body kickoff w = (inr (output_text r), w1).
Proof. intros H. unfold execute_crew_body. by rewrite H. Qed.




(** C7 (as stated, refuted).  A provider that times out on both attempts:
    what [_execute_crew] raises is tenacity's [RetryError] around the
    last failure, not the [TimeoutError] itself. *)
Lemma execute_crew_exhausted_raises_wrapper :
  _execute_crew kickoff_timeout 0%nat
    = Some (tenacity.mkCalled
              (inl (RetryError (TimeoutError "provider timed out"))) 2 [2] 2%nat) ∧
  tenacity.outcome <$> _execute_crew kickoff_timeout 0%nat
    ≠ Some (inl (TimeoutError "provider timed out")).
Proof. split; [reflexivity|discriminate]. Qed.

(** C7 (amended).  A failure of the final attempt is never swallowed.
    When the failure is not one the decorator retries on, the work
    unit's own exception is raised, after the first attempt or after the
    second.  When the second attempt fails with a failure the decorator
    retries on, the attempts are exhausted and [RetryError] is raised,
    carrying that failure as its last attempt. *)
Theorem execute_crew_final_failure_propagates {W}
    (kickoff : W → (Exc + CrewOutput) * W) (w : W) :
  (∀ e w1, kickoff w = (inl e, w1) → transient e = false → try_again e = false →
     tenacity.outcome <$> _execute_crew kickoff w = Some (inl e)) ∧
  (∀ e1 w1 e2 w2,
     kickoff w = (inl e1, w1) → transient e1 = true → kickoff w1 = (inl e2, w2) →
     tenacity.outcome <$> _execute_crew kickoff w
       = Some (inl (if transient e2 || try_again e2 then RetryError e2 else e2))).
Proof.
  split.
  - intros e w1 H Ht Ha. rewrite execute_crew_unfold.
    rewrite (execute_crew_body_raise _ _ _ _ H). by rewrite Ht, Ha.
  - intros e1 w1 e2 w2 H1 Ht1 H2. rewrite execute_crew_unfold.
    rewrite (execute_crew_body_raise _ _ _ _ H1), Ht1, orb_true_r. simpl.
    rewrite (execute_crew_body_raise _ _ _ _ H2). simpl.
    rewrite (orb_comm (try_again e2)). by destruct (transient e2 || try_again e2).
Qed.

Lemma execute_crew_final_failure_propagates_witness :
  tenacity.outcome <$> _execute_crew kickoff_invalid 0%nat
    = Some (inl (ValueError "invalid api key")) ∧
  tenacity.outcome <$> _execute_crew kickoff_timeout 0%nat
    = Some (inl (RetryError (TimeoutError "provider timed out"))).
Proof.
  destruct (execute_crew_final_failure_propagates kickoff_invalid 0%nat) as [H1 _].
  destruct (execute_crew_final_failure_propagates kickoff_timeout 0%nat) as [_ H2].
  split.
  - by apply (H1 _ 1%nat).
  - by apply (H2 (TimeoutError "provider timed out") 1%nat
                 (TimeoutError "provider timed out") 2%nat).
Defined.

(** ** The dispatcher *)

Lemma read_job_update_job id ns nr ne now st :
  read_job id (update_job id ns nr ne now st).2
    = apply_update ns nr ne now <$> read_job id st.
Proof.
  rewrite !read_job_unfold, update_job_jobs.
  destruct (_jobs st !! id) as [p|] eqn:Hp; simpl; [|done].
  by rewrite update_job_heap, decide_True.
Qed.

Section DispatcherFacts.
Variables MarketingCrew SupportCrew AnalysisCrew SocialMediaCrew : WorkUnit.

Abbreviation crew_map := (CREW_MAP MarketingCrew SupportCrew AnalysisCrew SocialMediaCrew).
Abbreviation job_work := (run_job_work MarketingCrew SupportCrew AnalysisCrew SocialMediaCrew).
Abbreviation run_job := (_run_crew_job MarketingCrew SupportCrew AnalysisCrew SocialMediaCrew).

Lemma run_job_begin_store id crew_name trace t w :
  store (run_job_begin id crew_name trace t w)
    = (update_job id (Some RUNNING) None None t (store w)).2.
Proof. reflexivity. Qed.

Lemma run_job_work_store crew_name payload meta trace w :
  store (job_work crew_name payload meta trace w).2 = store w.
Proof. unfold run_job_work. by destruct (crew_map !! crew_name). Qed.

(** What the work unit returns does not depend on the shared world. *)
Lemma run_job_work_outcome crew_name payload meta trace w w' :
  (job_work crew_name payload meta trace w).1
    = (job_work crew_name payload meta trace w').1.
Proof. unfold run_job_work. by destruct (crew_map !! crew_name). Qed.

Lemma run_job_end_store id trace out t w :
  store (run_job_end id trace out t w).2 =
    match out with
    | inr res => (update_job id (Some DONE) (Some res) None t (store w)).2
    | inl e =>
        if isinstance e "Exception"
        then (update_job id (Some FAILED) None (Some EXECUTION_ERROR) t (store w)).2
        else store w
    end.
Proof.
  unfold run_job_end. destruct out as [e|res]; [|done].
  by destruct (isinstance e "Exception").
Qed.

Lemma run_crew_job_unfold id crew_name payload meta trace t1 t2 w :
  run_job id crew_name payload meta trace t1 t2 w =
    run_job_end id trace
      (job_work crew_name payload meta trace (run_job_begin id crew_name trace t1 w)).1
      t2
      (job_work crew_name payload meta trace (run_job_begin id crew_name trace t1 w)).2.
Proof.
  unfold _run_crew_job.
  by destruct (job_work crew_name payload meta trace _).
Qed.

(** C3 (amended).  When the job id is not in the store, the RUNNING
    mark finds nothing and the dispatcher goes on all the same: it logs
    the start, invokes the work unit of the crew once, and logs the
    outcome; its final update finds nothing either, so the store is
    left as it was; no exception leaves the function unless the work
    unit raised one that is not an [Exception]. *)
Theorem run_crew_job_missing_job_runs_anyway
    id crew_name payload meta trace t1 t2 w crew_class :
  get_job id (store w) = None →
  crew_map !! crew_name = Some crew_class →
  let res := run_job id crew_name payload meta trace t1 t2 w in
  (update_job id (Some RUNNING) None None t1 (store w)).1 = None ∧
  store res.2 = store w ∧
  events res.2 =
    events w ++
    Log "INFO" trace ("Job " +:+ id +:+ " started for crew: " +:+ crew_name) ::
    Invoke crew_name payload meta trace ::
    match crew_class payload meta trace with
    | inr _ => [Log "INFO" trace ("Job " +:+ id +:+ " completed successfully")]
    | inl e =>
        if isinstance e "Exception"
        then [Log "ERROR" trace ("Job " +:+ id +:+ " failed: " +:+ type_name e)]
        else []
    end ∧
  res.1 = match crew_class payload meta trace with
          | inr _ => None
          | inl e => if isinstance e "Exception" then None else Some e
          end.
Proof.
  unfold get_job. intros Hid Hcrew. cbv zeta.
  unfold _run_crew_job, run_job_begin, run_job_work, run_job_end.
  rewrite Hcrew. rewrite (update_job_unknown _ _ _ _ _ _ Hid).
  destruct w as [st evs]; simpl in *.
  destruct (crew_class payload meta trace) as [e|r]; simpl.
  - destruct (isinstance e "Exception"); simpl;
      rewrite ?(update_job_unknown _ _ _ _ _ _ Hid); simpl;
      rewrite <- ?app_assoc; done.
  - rewrite (update_job_unknown _ _ _ _ _ _ Hid); simpl.
    rewrite <- !app_assoc. done.
Qed.
End DispatcherFacts.

(** C3 (as stated, refuted).  A run for job-9, which the store does not
    hold: the RUNNING mark reports not-found, and the marketing crew is
    invoked nevertheless. *)
Lemma run_crew_job_missing_job_invokes_work_unit :
  get_job "job-9" (store world_one_job) = None ∧
  (update_job "job-9" (Some RUNNING) None None 110 (store world_one_job)).1 = None ∧
  _run_crew_job crew_ok crew_ok crew_ok crew_ok
      "job-9" "marketing" [("topic", "x")] None "trace-9" 110 120 world_one_job
    = (None,
       mkWorld store_one_job
         [Log "INFO" "trace-9" "Job job-9 started for crew: marketing";
          Invoke "marketing" [("topic", "x")] None "trace-9";
          Log "INFO" "trace-9" "Job job-9 completed successfully"]).
Proof. repeat split. Qed.

Lemma run_crew_job_missing_job_runs_anyway_witness :
  get_job "job-9" (store world_one_job) = None ∧
  CREW_MAP crew_ok crew_fatal crew_ok crew_ok !! "support" = Some crew_fatal ∧
  store (_run_crew_job crew_ok crew_fatal crew_ok crew_ok
           "job-9" "support" [] None "trace-9" 110 120 world_one_job).2
    = store_one_job.
Proof.
  split; [reflexivity|]. split; [reflexivity|].
  by eapply (run_crew_job_missing_job_runs_anyway crew_ok crew_fatal crew_ok crew_ok
               "job-9" "support" [] None "trace-9" 110 120 world_one_job crew_fatal).
Defined.

(** C5 (as stated, refuted).  A work unit whose failure is not an
    [Exception] (here [SystemExit]) is not caught by the handler of
    [_run_crew_job]: the exception leaves the function, and the job
    stays RUNNING with no error at all. *)
Lemma run_crew_job_non_exception_leaves_job_running :
  (_run_crew_job crew_exit crew_ok crew_ok crew_ok
     "job-1" "marketing" [("topic", "x")] None "trace-1" 110 120 world_one_job).1
    = Some (PyExc "SystemExit" ["BaseException"; "object"] "1") ∧
  read_job "job-1"
    (store (_run_crew_job crew_exit crew_ok crew_ok crew_ok
              "job-1" "marketing" [("topic", "x")] None "trace-1" 110 120
              world_one_job).2)
    = Some (mkJob "job-1" "trace-1" "marketing" RUNNING None None 100 110).
Proof. split; vm_compute; reflexivity. Qed.

(** C5 (amended).  When the work unit fails with an [Exception] (the
    [RetryError] of exhausted retries and the lookup failure of the crew
    included), no exception leaves the dispatcher and the job, when the
    store holds it, is FAILED with the error
    [{"code": "EXECUTION_ERROR", "message": "An error occurred during
    crew execution"}], its result as it was: the record does not depend
    on the exception, and two runs that fail with different exceptions,
    of different crews, end with equal stores.  When the failure is not
    an [Exception], it leaves the dispatcher uncaught and the job stays
    RUNNING, its error and result as they were. *)
Theorem run_crew_job_failure_is_sanitized
    (M1 S1 A1 SM1 M2 S2 A2 SM2 : WorkUnit)
    id crew1 crew2 payload1 payload2 meta1 meta2 trace1 trace2 t1 t2 w e1 e2 :
  (run_job_work M1 S1 A1 SM1 crew1 payload1 meta1 trace1 w).1 = inl e1 →
  (run_job_work M2 S2 A2 SM2 crew2 payload2 meta2 trace2 w).1 = inl e2 →
  let res1 := _run_crew_job M1 S1 A1 SM1 id crew1 payload1 meta1 trace1 t1 t2 w in
  let res2 := _run_crew_job M2 S2 A2 SM2 id crew2 payload2 meta2 trace2 t1 t2 w in
  (isinstance e1 "Exception" = true →
   res1.1 = None ∧
   (isinstance e2 "Exception" = true → store res1.2 = store res2.2) ∧
   (∀ j, read_job id (store w) = Some j →
      read_job id (store res1.2)
        = Some (mkJob (job_id j) (trace_id j) (crew j) FAILED (result j)
                  (Some [("code", "EXECUTION_ERROR");
                         ("message", "An error occurred during crew execution")])
                  (created_at j) t2))) ∧
  (isinstance e1 "Exception" = false →
   res1.1 = Some e1 ∧
   (∀ j, read_job id (store w) = Some j →
      read_job id (store res1.2)
        = Some (mkJob (job_id j) (trace_id j) (crew j) RUNNING (result j) (error j)
                  (created_at j) t1))).
Proof.
  intros H1 H2. cbv zeta.
  rewrite !run_crew_job_unfold.
  rewrite (run_job_work_outcome M1 S1 A1 SM1 _ _ _ _ _ w), H1.
  rewrite (run_job_work_outcome M2 S2 A2 SM2 _ _ _ _ _ w), H2.
  rewrite !run_job_end_store, !run_job_work_store, !run_job_begin_store.
  split; intros He1; rewrite He1.
  - split; [unfold run_job_end; by rewrite He1|]. split.
    + by intros ->.
    + intros j Hj. rewrite !read_job_update_job, Hj. by destruct j.
  - split; [unfold run_job_end; by rewrite He1|].
    intros j Hj. rewrite read_job_update_job, Hj. by destruct j.
Qed.

Lemma run_crew_job_failure_is_sanitized_witness :
  read_job "job-1"
    (store (_run_crew_job crew_fatal crew_ok crew_ok crew_ok
              "job-1" "marketing" [("topic", "x")] None "trace-1" 110 120
              world_one_job).2)
  = Some (mkJob "job-1" "trace-1" "marketing" FAILED None
            (Some [("code", "EXECUTION_ERROR");
                   ("message", "An error occurred during crew execution")]) 100 120) ∧
  store (_run_crew_job crew_fatal crew_ok crew_ok crew_ok
           "job-1" "marketing" [("topic", "x")] None "trace-1" 110 120
           world_one_job).2
  = store (_run_crew_job crew_ok crew_ok crew_exhausted crew_ok
             "job-1" "analysis" [] None "trace-2" 110 120 world_one_job).2 ∧
  (_run_crew_job crew_exit crew_ok crew_ok crew_ok
     "job-1" "marketing" [("topic", "x")] None "trace-1" 110 120 world_one_job).1
  = Some (PyExc "SystemExit" ["BaseException"; "object"] "1").
Proof.
  pose proof (run_crew_job_failure_is_sanitized
                crew_fatal crew_ok crew_ok crew_ok crew_ok crew_ok crew_exhausted crew_ok
                "job-1" "marketing" "analysis" [("topic", "x")] [] None None
                "trace-1" "trace-2" 110 120 world_one_job
                (PyExc "AuthenticationError" exception_bases
                       "401 Unauthorized: invalid x-api-key")
                (RetryError (TimeoutError "provider timed out"))
                eq_refl eq_refl) as [Hexc _].
  pose proof (run_crew_job_failure_is_sanitized
                crew_exit crew_ok crew_ok crew_ok crew_exit crew_ok crew_ok crew_ok
                "job-1" "marketing" "marketing" [("topic", "x")] [("topic", "x")]
                None None "trace-1" "trace-1" 110 120 world_one_job
                (PyExc "SystemExit" ["BaseException"; "object"] "1")
                (PyExc "SystemExit" ["BaseException"; "object"] "1")
                eq_refl eq_refl) as [_ Hbase].
  destruct (Hexc eq_refl) as (_ & Heq & Hjob).
  destruct (Hbase eq_refl) as (Hleft & _).
  split; [|split; [exact (Heq eq_refl)|exact Hleft]].
  exact (Hjob (mkJob "job-1" "trace-1" "marketing" QUEUED None None 100 100) eq_refl).
Defined.

(** ** The periodic reaper *)

Lemma cleanup_round_job_store now w :
  ∃ w', cleanup_round job_store_cleanup now w = Looping w' ∧
        store w' = (cleanup_old_jobs now (store w)).2 ∧
        rounds_started (Looping w') = S (rounds_started (Looping w)).
Proof.
  unfold cleanup_round, job_store_cleanup.
  destruct (cleanup_old_jobs now (store (emit (Sleep 300) w))) as [removed st'] eqn:E.
  assert (length (filter (λ ev, is_sleep ev = true) (events w ++ [Sleep 300]))
          = S (length (filter (λ ev, is_sleep ev = true) (events w)))) as Hlen.
  { rewrite filter_app, length_app. simpl. lia. }
  change (store (emit (Sleep 300) w)) with (store w) in E.
  case_bool_decide; eexists; (split; [done|]);
    (split; [by rewrite E|]); unfold rounds_started; simpl.
  - rewrite filter_app, length_app. simpl. rewrite Nat.add_0_r. exact Hlen.
  - exact Hlen.
Qed.

(** C4 (as stated, refuted).  With a sweep that raises, the loop is over
    in its first round: the exception leaves the function, nothing is
    logged and the two later rounds are never started. *)
Lemma cleanup_loop_ends_on_failing_sweep :
  _cleanup_jobs_periodically sweep_failing [300; 600; 900] world_one_job
    = Raised (PyExc "RuntimeError" exception_bases "sweep failed")
             (mkWorld store_one_job [Sleep 300]) ∧
  rounds_started
    (_cleanup_jobs_periodically sweep_failing [300; 600; 900] world_one_job) = 1%nat.
Proof. split; reflexivity. Qed.

(** C4 (amended).  The loop has no handler for a failing sweep: if the
    sweep raises in a round, the exception ends the loop there, with
    nothing logged and no later round.  [job_store.cleanup_old_jobs]
    itself has no failing path, so with it the loop goes through every
    round: after any number of intervals it is still looping and has
    started one sweep per interval. *)
Theorem cleanup_loop_runs_while_sweep_succeeds :
  (∀ clock w, ∃ w',
     _cleanup_jobs_periodically job_store_cleanup clock w = Looping w' ∧
     rounds_started (Looping w') = (rounds_started (Looping w) + length clock)%nat) ∧
  (∀ (sweep : Sweep) now clock w e,
     sweep now (store w) = inl e →
     _cleanup_jobs_periodically sweep (now :: clock) w
       = Raised e (emit (Sleep 300) w)).
Proof.
  split.
  - intros clock. induction clock as [|now clock IH]; intros w; simpl.
    + exists w. split; [done|lia].
    + destruct (cleanup_round_job_store now w) as (w1 & -> & _ & Hr).
      destruct (IH w1) as (w' & -> & Hr').
      exists w'. split; [done|]. rewrite Hr', Hr. lia.
  - intros sweep now clock w e H. simpl. unfold cleanup_round. simpl.
    by rewrite H.
Qed.

Lemma cleanup_loop_runs_while_sweep_succeeds_witness :
  sweep_failing 300 (store world_one_job)
    = inl (PyExc "RuntimeError" exception_bases "sweep failed") ∧
  _cleanup_jobs_periodically sweep_failing [300; 600] world_one_job
    = Raised (PyExc "RuntimeError" exception_bases "sweep failed")
             (emit (Sleep 300) world_one_job).
Proof.
  split; [reflexivity|].
  destruct cleanup_loop_runs_while_sweep_succeeds as [_ H].
  by apply H.
Defined.

(** ** The invariant of the process *)

Lemma System_init_invariant : invariant System_init.
Proof. split; simpl; [done|done|]. intros id [[? H]|[? H]]; by rewrite lookup_empty in H. Qed.

(** Under [inv_owned] two ids never share a Job object, so an update of
    one job leaves the record of every other job alone. *)
Lemma read_job_update_job_ne s id id' ns nr ne now :
  invariant s → id ≠ id' →
  read_job id' (update_job id ns nr ne now (store (world s))).2
    = read_job id' (store (world s)).
Proof.
  intros Hinv Hne. rewrite !read_job_unfold, update_job_jobs.
  destruct (_jobs (store (world s)) !! id') as [p'|] eqn:Hp'; simpl; [|done].
  rewrite update_job_heap. case_decide as Hp; [|done].
  destruct (inv_owned s Hinv id p' Hp) as (j & Hj & Hid).
  destruct (inv_owned s Hinv id' p' Hp') as (j' & Hj' & Hid').
  congruence.
Qed.

Lemma read_job_cleanup_old_jobs now st id j :
  read_job id (cleanup_old_jobs now st).2 = Some j → read_job id st = Some j.
Proof.
  rewrite read_job_after_cleanup.
  destruct (read_job id st) as [j'|]; [|done].
  by destruct (bool_decide (created_at j' < now - _ttl_seconds st)).
Qed.

(** An update of one job, together with a change of the thread table at
    that job only, keeps the invariant as soon as the updated record
    fits its new thread phase. *)
Lemma invariant_update s id ns nr ne now w' tasks' :
  invariant s →
  store w' = (update_job id ns nr ne now (store (world s))).2 →
  (∀ id', id' ≠ id → tasks' !! id' = tasks s !! id') →
  (is_Some (tasks' !! id) → is_Some (tasks s !! id)) →
  (∀ j, read_job id (store (world s)) = Some j →
        well_shaped (apply_update ns nr ne now j) ∧
        agrees (tasks' !! id) (apply_update ns nr ne now j)) →
  invariant (mkSystem w' tasks' (issued s)).
Proof.
  intros Hinv Hst Hother Hsame Hjob. split; simpl; rewrite ?Hst.
  - intros id' p. rewrite update_job_jobs, update_job_heap. intros Hp.
    destruct (inv_owned s Hinv id' p Hp) as (j & Hj & Hid).
    case_decide.
    + exists (apply_update ns nr ne now j). rewrite Hj. split; [done|].
      by destruct (apply_update_frame ns nr ne now j) as (-> & _).
    + eauto.
  - intros id' j. destruct (decide (id' = id)) as [->|Hne].
    + rewrite read_job_update_job.
      destruct (read_job id (store (world s))) as [j0|] eqn:Hj0; [|done].
      intros [= <-]. by apply Hjob.
    + rewrite (read_job_update_job_ne s id id') by done.
      rewrite Hother by done. by apply (inv_shape s Hinv).
  - rewrite update_job_jobs. intros id' [H|H].
    + apply (inv_issued s Hinv). by left.
    + apply (inv_issued s Hinv). right.
      destruct (decide (id' = id)) as [->|Hne]; [by apply Hsame|].
      by rewrite <- Hother.
Qed.

Lemma cleanup_round_store now w :
  store (thread_world (cleanup_round job_store_cleanup now w))
    = (cleanup_old_jobs now (store w)).2.
Proof. by destruct (cleanup_round_job_store now w) as (w' & -> & <- & _). Qed.

Lemma read_job_create_job uuid t1 t2 trace crew_name st id :
  (∀ id p, _jobs st !! id = Some p → is_Some (heap st !! p)) →
  read_job id (create_job uuid t1 t2 trace crew_name st).2 =
    if decide (id = uuid)
    then Some (mkJob uuid trace crew_name QUEUED None None t1 t2)
    else read_job id st.
Proof.
  intros Hown. rewrite !read_job_unfold. simpl. case_decide as Hid.
  - subst. rewrite lookup_insert_eq. simpl.
    by rewrite lookup_app_r, Nat.sub_diag.
  - rewrite lookup_insert_ne by done.
    destruct (_jobs st !! id) as [p|] eqn:Hp; simpl; [|done].
    destruct (Hown id p Hp) as [j Hj]. rewrite Hj.
    by apply lookup_app_l_Some.
Qed.

Section SystemFacts.
Variables MarketingCrew SupportCrew AnalysisCrew SocialMediaCrew : WorkUnit.

Abbreviation sys_step := (step MarketingCrew SupportCrew AnalysisCrew SocialMediaCrew).
Abbreviation sys_reachable :=
  (reachable MarketingCrew SupportCrew AnalysisCrew SocialMediaCrew).
Abbreviation sys_work :=
  (run_job_work MarketingCrew SupportCrew AnalysisCrew SocialMediaCrew).

Lemma step_end_store id c p m trace now w0 :
  store (let (out, w) := sys_work c p m trace w0 in (run_job_end id trace out now w).2) =
    match (sys_work c p m trace w0).1 with
    | inr res => (update_job id (Some DONE) (Some res) None now (store w0)).2
    | inl e =>
        if isinstance e "Exception"
        then (update_job id (Some FAILED) None (Some EXECUTION_ERROR) now (store w0)).2
        else store w0
    end.
Proof.
  pose proof (run_job_work_store MarketingCrew SupportCrew AnalysisCrew SocialMediaCrew
                c p m trace w0) as Hst.
  destruct (sys_work c p m trace w0) as [out w]. simpl in *.
  by rewrite run_job_end_store, Hst.
Qed.

Lemma step_invariant s s' : invariant s → sys_step s s' → invariant s'.
Proof.
  intros Hinv Hstep. destruct Hstep as
    [s uuid tc tu trace crew_name payload meta Hfresh _
    |s id k t Hk Hph
    |s id k t Hk Hph
    |s now].
  - (* submit *)
    assert (_jobs (store (world s)) !! uuid = None) as Hnew.
    { destruct (_jobs (store (world s)) !! uuid) eqn:E; [|done].
      exfalso. apply Hfresh, (inv_issued s Hinv). left. by rewrite E. }
    assert (tasks s !! uuid = None) as Hnot.
    { destruct (tasks s !! uuid) eqn:E; [|done].
      exfalso. apply Hfresh, (inv_issued s Hinv). right. by rewrite E. }
    assert (∀ id p, _jobs (store (world s)) !! id = Some p →
                    is_Some (heap (store (world s)) !! p)) as Hown.
    { intros id p Hp. destruct (inv_owned s Hinv id p Hp) as (j & -> & _). eauto. }
    split; simpl.
    + intros id p. destruct (decide (id = uuid)) as [->|Hne].
      * rewrite lookup_insert_eq. intros [= <-].
        eexists. split; [by rewrite lookup_app_r, Nat.sub_diag|done].
      * rewrite lookup_insert_ne by done. intros Hp.
        destruct (inv_owned s Hinv id p Hp) as (j & Hj & Hid).
        exists j. split; [by apply lookup_app_l_Some|done].
    + intros id j.
      change (read_job id (create_job uuid tc tu trace crew_name (store (world s))).2
              = Some j → well_shaped j ∧ agrees (<[uuid:=mkTask crew_name payload meta trace Started]> (tasks s) !! id) j).
      rewrite read_job_create_job by done. case_decide as Hid.
      * subst. intros [= <-]. rewrite lookup_insert_eq. by split.
      * rewrite lookup_insert_ne by done. by apply (inv_shape s Hinv).
    + intros id [H|H]; destruct (decide (id = uuid)) as [->|Hne];
        try set_solver.
      * rewrite lookup_insert_ne in H by done.
        apply elem_of_union_r, (inv_issued s Hinv). by left.
      * rewrite lookup_insert_ne in H by done.
        apply elem_of_union_r, (inv_issued s Hinv). by right.
  - (* the RUNNING mark *)
    eapply (invariant_update s id (Some RUNNING) None None t); [done|done|..].
    + intros id' Hne. by rewrite lookup_insert_ne.
    + intros _. by rewrite Hk.
    + intros j Hj. destruct (inv_shape s Hinv id j Hj) as [Hsh Hag].
      rewrite lookup_insert_eq. unfold agrees in *. rewrite Hk in Hag.
      simpl in Hag. rewrite Hph in Hag.
      unfold well_shaped in *. rewrite Hag in Hsh. by destruct j; simpl in *.
  - (* the final update *)
    assert (∀ j, read_job id (store (world s)) = Some j →
                 status j = RUNNING ∧ result j = None ∧ error j = None) as Hrun.
    { intros j Hj. destruct (inv_shape s Hinv id j Hj) as [Hsh Hag].
      unfold agrees in Hag. rewrite Hk in Hag. simpl in Hag. rewrite Hph in Hag.
      unfold well_shaped in Hsh. by rewrite Hag in Hsh. }
    pose proof (step_end_store id (task_crew k) (task_payload k) (task_meta k)
                  (task_trace k) t (world s)) as Hst.
    destruct ((sys_work (task_crew k) (task_payload k) (task_meta k)
                 (task_trace k) (world s)).1) as [e|res].
    + destruct (isinstance e "Exception").
      * eapply (invariant_update s id (Some FAILED) None (Some EXECUTION_ERROR) t);
          [done|exact Hst|..].
        -- intros id' Hne. by rewrite lookup_delete_ne.
        -- rewrite lookup_delete_eq. by intros [? ?].
        -- intros j Hj. destruct (Hrun j Hj) as (Hs & Hr & He).
           rewrite lookup_delete_eq. unfold well_shaped, agrees.
           destruct j; simpl in *; subst. by split; [split; [eexists|]|].
      * split; simpl; rewrite ?Hst.
        -- apply (inv_owned s Hinv).
        -- intros id' j Hj. destruct (inv_shape s Hinv id' j Hj) as [Hsh Hag].
           split; [done|]. destruct (decide (id' = id)) as [->|Hne].
           ++ rewrite lookup_delete_eq. destruct (Hrun j Hj) as (Hs & _).
              unfold agrees. simpl. by rewrite Hs.
           ++ by rewrite lookup_delete_ne.
        -- intros id' [H|H]; apply (inv_issued s Hinv); [by left|right].
           destruct (decide (id' = id)) as [->|Hne].
           ++ by rewrite lookup_delete_eq in H; destruct H.
           ++ by rewrite lookup_delete_ne in H.
    + eapply (invariant_update s id (Some DONE) (Some res) None t);
        [done|exact Hst|..].
      * intros id' Hne. by rewrite lookup_delete_ne.
      * rewrite lookup_delete_eq. by intros [? ?].
      * intros j Hj. destruct (Hrun j Hj) as (Hs & Hr & He).
        rewrite lookup_delete_eq. unfold well_shaped, agrees.
        destruct j; simpl in *; subst. by split; [split; [eexists|]|].
  - (* a sweep *)
    split; simpl; rewrite cleanup_round_store.
    + intros id p. rewrite cleanup_old_jobs_lookup, cleanup_old_jobs_heap.
      destruct (_jobs (store (world s)) !! id) as [p'|] eqn:Hp; [|done].
      destruct (is_old _ _ _); [done|]. intros [= <-].
      by apply (inv_owned s Hinv).
    + intros id j Hj. apply read_job_cleanup_old_jobs in Hj.
      by apply (inv_shape s Hinv).
    + intros id [H|H]; apply (inv_issued s Hinv); [left|by right].
      rewrite cleanup_old_jobs_lookup in H.
      destruct (_jobs (store (world s)) !! id); [eauto|by destruct H].
Qed.

Lemma reachable_invariant s : sys_reachable s → invariant s.
Proof.
  unfold reachable. revert s.
  apply rtc_ind_r; [apply System_init_invariant|].
  intros y z _ Hstep IH. by eapply step_invariant.
Qed.
End SystemFacts.

(** ** Status and payload of the jobs of the process *)

Lemma forward_refl a : forward a a = true.
Proof. by destruct a. Qed.

Lemma forward_update s id0 ns nr ne now id j j' :
  invariant s →
  read_job id (store (world s)) = Some j →
  read_job id (update_job id0 ns nr ne now (store (world s))).2 = Some j' →
  (id = id0 → forward (status j) (default (status j) ns) = true) →
  forward (status j) (status j') = true.
Proof.
  intros Hinv Hj Hj' Hfw. destruct (decide (id = id0)) as [->|Hne].
  - rewrite read_job_update_job, Hj in Hj'. injection Hj' as <-.
    rewrite apply_update_status. by apply Hfw.
  - rewrite (read_job_update_job_ne s id0 id) in Hj' by done.
    rewrite Hj in Hj'. injection Hj' as <-. apply forward_refl.
Qed.

Section Lifecycle.
Variables MarketingCrew SupportCrew AnalysisCrew SocialMediaCrew : WorkUnit.

Abbreviation life_step := (step MarketingCrew SupportCrew AnalysisCrew SocialMediaCrew).
Abbreviation life_reachable :=
  (reachable MarketingCrew SupportCrew AnalysisCrew SocialMediaCrew).

Lemma step_forward s s' id j j' :
  invariant s → life_step s s' →
  read_job id (store (world s)) = Some j →
  read_job id (store (world s')) = Some j' →
  forward (status j) (status j') = true.
Proof.
  intros Hinv Hstep Hj. destruct Hstep as
    [s uuid tc tu trace crew_name payload meta Hfresh _
    |s id0 k t Hk Hph
    |s id0 k t Hk Hph
    |s now]; cbn [world].
  - change (store (submit_async uuid tc tu trace crew_name (world s)))
      with (create_job uuid tc tu trace crew_name (store (world s))).2.
    rewrite read_job_create_job.
    + case_decide as Hid.
      * subst. exfalso. apply Hfresh, (inv_issued s Hinv). left.
        rewrite read_job_unfold in Hj.
        destruct (_jobs (store (world s)) !! uuid); [eauto|done].
      * rewrite Hj. intros [= <-]. apply forward_refl.
    + intros i p Hp. destruct (inv_owned s Hinv i p Hp) as (? & -> & _). eauto.
  - rewrite run_job_begin_store. intros Hj'.
    eapply forward_update; [done..|]. intros ->.
    destruct (inv_shape s Hinv id0 j Hj) as [_ Hag].
    unfold agrees in Hag. rewrite Hk in Hag. simpl in Hag. rewrite Hph in Hag.
    by rewrite Hag.
  - rewrite step_end_store.
    assert (id = id0 → status j = RUNNING) as Hrun.
    { intros ->. destruct (inv_shape s Hinv id0 j Hj) as [_ Hag].
      unfold agrees in Hag. rewrite Hk in Hag. simpl in Hag. by rewrite Hph in Hag. }
    destruct ((run_job_work _ _ _ _ (task_crew k) (task_payload k) (task_meta k)
                 (task_trace k) (world s)).1) as [e|res].
    + destruct (isinstance e "Exception").
      * intros Hj'. eapply forward_update; [done..|].
        intros Hid. by rewrite (Hrun Hid).
      * rewrite Hj. intros [= <-]. apply forward_refl.
    + intros Hj'. eapply forward_update; [done..|].
      intros Hid. by rewrite (Hrun Hid).
  - rewrite cleanup_round_store. intros Hj'.
    apply read_job_cleanup_old_jobs in Hj'. rewrite Hj in Hj'.
    injection Hj' as <-. apply forward_refl.
Qed.

(** C1 (amended).  [update_job] does not look at the current status: it
    sets the status it is given, on a DONE or FAILED job as on any
    other, and keeps the status only when none is given.  The order
    QUEUED, RUNNING, then DONE or FAILED is kept by the callers of the
    store: in every step of the process (a submission, the RUNNING mark
    or the final update of a dispatcher thread, a sweep) the status of
    each job in the store stays as it is or moves forward along that
    order. *)
Theorem status_set_unguarded_forward_by_callers :
  (∀ id ns nr ne now st j,
     read_job id st = Some j →
     status <$> read_job id (update_job id ns nr ne now st).2
       = Some (match ns with Some s => s | None => status j end)) ∧
  (∀ s s' id j j',
     life_reachable s → life_step s s' →
     read_job id (store (world s)) = Some j →
     read_job id (store (world s')) = Some j' →
     forward (status j) (status j') = true).
Proof.
  split.
  - intros id ns nr ne now st j Hj.
    rewrite read_job_update_job, Hj. simpl.
    by destruct ns, nr, ne.
  - intros s s' id j j' Hreach. apply step_forward.
    by apply (reachable_invariant MarketingCrew SupportCrew AnalysisCrew SocialMediaCrew).
Qed.

(** C8.  In every state of the process, a job whose status is DONE has a
    result and no error, and a job whose status is FAILED has an error
    and no result. *)
Theorem terminal_job_has_exactly_one_of_result_error s id j :
  life_reachable s →
  read_job id (store (world s)) = Some j →
  (status j = DONE → is_Some (result j) ∧ error j = None) ∧
  (status j = FAILED → is_Some (error j) ∧ result j = None).
Proof.
  intros Hreach Hj.
  pose proof (reachable_invariant _ _ _ _ s Hreach) as Hinv.
  destruct (inv_shape s Hinv id j Hj) as [Hsh _].
  unfold well_shaped in Hsh. split; intros Hs; by rewrite Hs in Hsh.
Qed.
End Lifecycle.

(** C1 (as stated, refuted).  On the store whose job-1 is DONE, a later
    [update_job] with status RUNNING is accepted (it returns the job),
    and the job is RUNNING again. *)
Lemma update_job_reverts_terminal_status :
  status <$> read_job "job-1" store_done_job = Some DONE ∧
  (update_job "job-1" (Some RUNNING) None None 130 store_done_job).1 = Some 0%nat ∧
  status <$> read_job "job-1"
               (update_job "job-1" (Some RUNNING) None None 130 store_done_job).2
    = Some RUNNING.
Proof. repeat split. Qed.

Lemma system_done_reachable : reachable crew_ok crew_ok crew_ok crew_ok system_done.
Proof.
  unfold reachable.
  eapply rtc_l; [|eapply rtc_l; [|eapply rtc_l; [|apply rtc_refl]]].
  - apply (step_submit _ _ _ _ System_init "job-1" 100 100 "trace-1" "marketing"
             [("topic", "x")] None); [set_solver|by eexists].
  - by apply (step_begin _ _ _ _ system_submitted "job-1"
                (mkTask "marketing" [("topic", "x")] None "trace-1" Started) 110).
  - by apply (step_end _ _ _ _ system_running "job-1"
                (mark (mkTask "marketing" [("topic", "x")] None "trace-1" Started)) 120).
Qed.

Lemma system_running_reachable : reachable crew_ok crew_ok crew_ok crew_ok system_running.
Proof.
  unfold reachable.
  eapply rtc_l; [|eapply rtc_l; [|apply rtc_refl]].
  - apply (step_submit _ _ _ _ System_init "job-1" 100 100 "trace-1" "marketing"
             [("topic", "x")] None); [set_solver|by eexists].
  - by apply (step_begin _ _ _ _ system_submitted "job-1"
                (mkTask "marketing" [("topic", "x")] None "trace-1" Started) 110).
Qed.

Lemma terminal_job_has_exactly_one_of_result_error_witness :
  reachable crew_ok crew_ok crew_ok crew_ok system_done ∧
  read_job "job-1" (store (world system_done))
    = Some (mkJob "job-1" "trace-1" "marketing" DONE (Some [("output", "ok")]) None 100 120) ∧
  is_Some (Some [("output", "ok")] : option Dict) ∧ (None : option Dict) = None.
Proof.
  split; [apply system_done_reachable|]. split; [reflexivity|].
  destruct (terminal_job_has_exactly_one_of_result_error crew_ok crew_ok crew_ok crew_ok
              system_done "job-1"
              (mkJob "job-1" "trace-1" "marketing" DONE (Some [("output", "ok")]) None 100 120)
              system_done_reachable eq_refl) as [Hdone _].
  by apply Hdone.
Defined.

Lemma status_set_unguarded_forward_by_callers_witness :
  status <$> read_job "job-1"
               (update_job "job-1" (Some QUEUED) None None 130 store_done_job).2
    = Some QUEUED ∧
  forward RUNNING DONE = true.
Proof.
  destruct (status_set_unguarded_forward_by_callers crew_ok crew_ok crew_ok crew_ok)
    as [Hset Hfw].
  split.
  - by apply (Hset "job-1" (Some QUEUED) None None 130 store_done_job
                (mkJob "job-1" "trace-1" "marketing" DONE (Some [("output", "ok")]) None 100 120)).
  - apply (Hfw system_running system_done "job-1"
             (mkJob "job-1" "trace-1" "marketing" RUNNING None None 100 110)
             (mkJob "job-1" "trace-1" "marketing" DONE (Some [("output", "ok")]) None 100 120)
             system_running_reachable).
    + by apply (step_end _ _ _ _ system_running "job-1"
                  (mark (mkTask "marketing" [("topic", "x")] None "trace-1" Started)) 120).
    + reflexivity.
    + reflexivity.
Defined.

(* ===================================================================== *)
(** * Further properties of the job store *)
(* ===================================================================== *)

(** ** Statistics *)

Lemma JobStatus_value_inj a b : JobStatus_value a = JobStatus_value b → a = b.
Proof. by destruct a, b. Qed.

Lemma JobStatus_value_not_total s : JobStatus_value s ≠ "total".
Proof. by destruct s. Qed.

Lemma count_of_cons s j l :
  count_of s (j :: l) = ((if decide (status j = s) then 1 else 0) + count_of s l)%nat.
Proof.
  unfold count_of. rewrite filter_cons. by case_decide.
Qed.

(** The counter of a status after the loop: what it was, plus the jobs
    of that status; it exists only if it existed or such a job came. *)
Lemma foldl_count_status_value l acc s :
  foldl count_status acc l !! JobStatus_value s =
    if decide (count_of s l = 0%nat) then acc !! JobStatus_value s
    else Some (default 0%nat (acc !! JobStatus_value s) + count_of s l)%nat.
Proof.
  revert acc. induction l as [|j l IH]; intros acc; [done|].
  simpl. rewrite IH, count_of_cons. unfold count_status.
  destruct (decide (status j = s)) as [->|Hne].
  - rewrite lookup_insert_eq. simpl.
    destruct (decide (count_of s l = 0%nat)) as [->|?]; f_equal; lia.
  - rewrite lookup_insert_ne by (intros H; by apply JobStatus_value_inj in H).
    simpl. done.
Qed.

Lemma foldl_count_status_other l acc k :
  (∀ s, k ≠ JobStatus_value s) →
  foldl count_status acc l !! k = acc !! k.
Proof.
  intros Hk. revert acc. induction l as [|j l IH]; intros acc; [done|].
  simpl. rewrite IH. unfold count_status. by rewrite lookup_insert_ne.
Qed.

Lemma count_of_total l :
  (count_of QUEUED l + count_of RUNNING l + count_of DONE l + count_of FAILED l
   = length l)%nat.
Proof.
  induction l as [|j l IH]; [done|].
  rewrite !count_of_cons. simpl. destruct (status j); simpl; lia.
Qed.

Lemma length_stored_jobs st :
  allocated st → length (stored_jobs st) = size (_jobs st).
Proof.
  intros Hal. unfold stored_jobs. rewrite <- length_map_to_list.
  assert (∀ it, it ∈ map_to_list (_jobs st) → is_Some (heap st !! it.2)) as H.
  { intros [id p] Hin. apply elem_of_map_to_list in Hin. by eapply Hal. }
  induction (map_to_list (_jobs st)) as [|it l IH]; [done|].
  simpl. destruct (H it) as [j ->]; [left|]. simpl. f_equal.
  apply IH. intros it' Hin. apply H. by right.
Qed.

(** X1.  [get_stats] reports under "total" the number of entries of the
    dictionary and, under the value of each status, the number of stored
    jobs with that status; a status no job has gets no key at all (not a
    zero); there are no other keys; and the per-status numbers add up to
    the total. *)
Theorem get_stats_counts st :
  get_stats st !! "total" = Some (size (_jobs st)) ∧
  (∀ s, get_stats st !! JobStatus_value s =
        if decide (count_of s (stored_jobs st) = 0%nat) then None
        else Some (count_of s (stored_jobs st))) ∧
  (∀ k, k ≠ "total" → (∀ s, k ≠ JobStatus_value s) → get_stats st !! k = None) ∧
  (allocated st →
   (count_of QUEUED (stored_jobs st) + count_of RUNNING (stored_jobs st) +
    count_of DONE (stored_jobs st) + count_of FAILED (stored_jobs st)
    = size (_jobs st))%nat).
Proof.
  unfold get_stats. split_and!.
  - rewrite lookup_union_r; [by rewrite lookup_singleton_eq|].
    rewrite foldl_count_status_other; [done|].
    intros s. by destruct s.
  - intros s. rewrite lookup_union_l.
    + rewrite foldl_count_status_value, lookup_empty. by case_decide.
    + rewrite lookup_singleton_ne; [done|]. by destruct s.
  - intros k Hk Hs. apply lookup_union_None. split.
    + by rewrite foldl_count_status_other.
    + by rewrite lookup_singleton_ne.
  - intros Hal. rewrite count_of_total. by apply length_stored_jobs.
Qed.

Lemma allocated_init ttl : allocated (JobStore_init ttl).
Proof. intros id p H. simpl in H. by rewrite lookup_empty in H. Qed.

Lemma allocated_create_job uuid t1 t2 trace crew_name st :
  allocated st → allocated (create_job uuid t1 t2 trace crew_name st).2.
Proof.
  intros Hal id p. simpl. destruct (decide (id = uuid)) as [->|Hne].
  - rewrite lookup_insert_eq. intros [= <-].
    apply lookup_lt_is_Some. rewrite length_app. simpl. lia.
  - rewrite lookup_insert_ne by done. intros Hp.
    apply lookup_lt_is_Some. rewrite length_app.
    apply Hal, lookup_lt_is_Some in Hp. lia.
Qed.

Lemma allocated_update_job id ns nr ne now st :
  allocated st → allocated (update_job id ns nr ne now st).2.
Proof.
  intros Hal id' p. rewrite update_job_jobs. intros Hp.
  apply lookup_lt_is_Some. rewrite update_job_heap_length.
  by apply lookup_lt_is_Some, (Hal id').
Qed.

Lemma allocated_store_three_jobs : allocated store_three_jobs.
Proof.
  unfold store_three_jobs, store_done_job, store_one_job.
  repeat (apply allocated_update_job || apply allocated_create_job).
  apply allocated_init.
Qed.

Lemma get_stats_counts_witness :
  allocated store_three_jobs ∧
  get_stats store_three_jobs !! "total" = Some 3%nat ∧
  get_stats store_three_jobs !! "running" = Some 1%nat ∧
  get_stats store_three_jobs !! "failed" = None ∧
  (count_of QUEUED (stored_jobs store_three_jobs) +
   count_of RUNNING (stored_jobs store_three_jobs) +
   count_of DONE (stored_jobs store_three_jobs) +
   count_of FAILED (stored_jobs store_three_jobs) = 3)%nat.
Proof.
  destruct (get_stats_counts store_three_jobs) as (Htot & Hval & _ & Hsum).
  split; [exact allocated_store_three_jobs|].
  split; [rewrite Htot; by vm_compute|].
  split; [change "running" with (JobStatus_value RUNNING);
          rewrite (Hval RUNNING); by vm_compute|].
  split; [change "failed" with (JobStatus_value FAILED);
          rewrite (Hval FAILED); by vm_compute|].
  rewrite (Hsum allocated_store_three_jobs). by vm_compute.
Defined.

(** ** Sweeps in sequence *)

(** X2.  Sweeps compose: a sweep at [now1] followed by a sweep at a later
    (or equal) reading [now2] leaves the store exactly as one sweep at
    [now2] does, and the two returned numbers add up to the number the
    single sweep returns. *)
Theorem cleanup_old_jobs_compose now1 now2 st :
  now1 ≤ now2 →
  (cleanup_old_jobs now2 (cleanup_old_jobs now1 st).2).2 = (cleanup_old_jobs now2 st).2 ∧
  ((cleanup_old_jobs now1 st).1 + (cleanup_old_jobs now2 (cleanup_old_jobs now1 st).2).1
   = (cleanup_old_jobs now2 st).1)%nat.
Proof.
  intros Hle.
  pose proof (cleanup_old_jobs_absorb now1 now2 st Hle) as Heq.
  split; [exact Heq|].
  pose proof (cleanup_old_jobs_count now1 st) as C1.
  pose proof (cleanup_old_jobs_count now2 (cleanup_old_jobs now1 st).2) as C2.
  pose proof (cleanup_old_jobs_count now2 st) as C3.
  rewrite Heq in C2. lia.
Qed.

Lemma cleanup_old_jobs_compose_witness :
  (3650 ≤ 3800) ∧
  (cleanup_old_jobs 3800 (cleanup_old_jobs 3650 store_three_jobs).2).2
    = (cleanup_old_jobs 3800 store_three_jobs).2.
Proof.
  split; [lia|].
  apply (cleanup_old_jobs_compose 3650 3800 store_three_jobs). lia.
Defined.

Lemma nondecreasing_tail a clock : nondecreasing (a :: clock) → nondecreasing clock.
Proof. destruct clock; simpl; tauto. Qed.

Lemma nondecreasing_first_last a clock now :
  nondecreasing (a :: clock ++ [now]) → a ≤ now.
Proof.
  revert a. induction clock as [|b clock IH]; intros a; simpl.
  - tauto.
  - intros [Hab H]. apply IH in H. lia.
Qed.

(** X3.  The reaper over clock readings that never go back: after its
    rounds the loop is still running, the store is what a single sweep
    at the last reading would have left, and every job still in the
    store was created no earlier than that reading minus the TTL. *)
Theorem reaper_rounds_equal_last_sweep clock now w :
  nondecreasing (clock ++ [now]) →
  ∃ w', _cleanup_jobs_periodically job_store_cleanup (clock ++ [now]) w = Looping w' ∧
        store w' = (cleanup_old_jobs now (store w)).2 ∧
        ∀ id j, read_job id (store w') = Some j →
                now - _ttl_seconds (store w) ≤ created_at j.
Proof.
  intros Hnd.
  assert (∃ w', _cleanup_jobs_periodically job_store_cleanup (clock ++ [now]) w
                  = Looping w' ∧
                store w' = (cleanup_old_jobs now (store w)).2) as (w' & Hrun & Hst).
  { revert w Hnd. induction clock as [|a clock IH]; intros w Hnd.
    - simpl. destruct (cleanup_round_job_store now w) as (w1 & -> & Hst & _). eauto.
    - change ((a :: clock) ++ [now]) with (a :: clock ++ [now]) in *.
      pose proof (nondecreasing_first_last _ _ _ Hnd) as Hle.
      apply nondecreasing_tail in Hnd.
      simpl. destruct (cleanup_round_job_store a w) as (w1 & -> & Hst1 & _).
      destruct (IH w1 Hnd) as (w' & -> & Hst').
      exists w'. split; [done|].
      rewrite Hst', Hst1. by apply cleanup_old_jobs_absorb. }
  exists w'. split; [done|]. split; [done|].
  intros id j. rewrite Hst, read_job_after_cleanup.
  destruct (read_job id (store w)) as [j0|]; [|done].
  case_bool_decide; [done|]. intros [= <-]. lia.
Qed.

Lemma reaper_rounds_equal_last_sweep_witness :
  nondecreasing ([3650; 3700] ++ [3800]) ∧
  ∃ w', _cleanup_jobs_periodically job_store_cleanup ([3650; 3700] ++ [3800])
          (mkWorld store_three_jobs []) = Looping w' ∧
        store w' = (cleanup_old_jobs 3800 store_three_jobs).2.
Proof.
  assert (nondecreasing ([3650; 3700] ++ [3800])) as Hnd by (simpl; lia).
  split; [exact Hnd|].
  destruct (reaper_rounds_equal_last_sweep [3650; 3700] 3800
              (mkWorld store_three_jobs []) Hnd) as (w' & Hrun & Hst & _).
  exists w'. split; [exact Hrun|exact Hst].
Defined.

(* ===================================================================== *)
(** * Further properties of the dispatcher and of the process *)
(* ===================================================================== *)

(** X4.  A run of [_run_crew_job] for a job the store holds, with a crew
    that returns a result: no exception leaves the function; the job is
    DONE, its result is the dictionary the crew returned, its error is
    as it was, [updated_at] is the reading of the final update and the
    other fields are untouched; the dictionary of the store is as
    before; and the run logged its start, invoked the crew once and
    logged the completion, in this order. *)
Theorem run_crew_job_success
    (M S A SM : WorkUnit) id crew_name payload meta trace t1 t2 w crew_class res j :
  CREW_MAP M S A SM !! crew_name = Some crew_class →
  crew_class payload meta trace = inr res →
  read_job id (store w) = Some j →
  let out := _run_crew_job M S A SM id crew_name payload meta trace t1 t2 w in
  out.1 = None ∧
  read_job id (store out.2)
    = Some (mkJob (job_id j) (trace_id j) (crew j) DONE (Some res) (error j)
                  (created_at j) t2) ∧
  _jobs (store out.2) = _jobs (store w) ∧
  events out.2 =
    events w ++
    [Log "INFO" trace ("Job " +:+ id +:+ " started for crew: " +:+ crew_name);
     Invoke crew_name payload meta trace;
     Log "INFO" trace ("Job " +:+ id +:+ " completed successfully")].
Proof.
  intros Hcrew Hres Hj. cbv zeta.
  unfold _run_crew_job, run_job_work. rewrite Hcrew, Hres.
  unfold run_job_end, run_job_begin. simpl.
  split; [done|]. split; [|split].
  - rewrite !read_job_update_job, Hj. by destruct j.
  - by rewrite !update_job_jobs.
  - by rewrite <- !app_assoc.
Qed.

Lemma run_crew_job_success_witness :
  read_job "job-1"
    (store (_run_crew_job crew_ok crew_ok crew_ok crew_ok
              "job-1" "marketing" [("topic", "x")] None "trace-1" 110 120
              world_one_job).2)
  = Some (mkJob "job-1" "trace-1" "marketing" DONE (Some [("output", "ok")]) None 100 120).
Proof.
  by destruct (run_crew_job_success crew_ok crew_ok crew_ok crew_ok
                 "job-1" "marketing" [("topic", "x")] None "trace-1" 110 120
                 world_one_job crew_ok [("output", "ok")]
                 (mkJob "job-1" "trace-1" "marketing" QUEUED None None 100 100)
                 eq_refl eq_refl eq_refl) as (_ & -> & _).
Defined.

Section ProcessFacts.
Variables MarketingCrew SupportCrew AnalysisCrew SocialMediaCrew : WorkUnit.

Abbreviation proc_step := (step MarketingCrew SupportCrew AnalysisCrew SocialMediaCrew).
Abbreviation proc_reachable :=
  (reachable MarketingCrew SupportCrew AnalysisCrew SocialMediaCrew).

(** What one step of the process can do to a record of the store: leave
    it alone; update it, which only the job's own dispatcher thread
    does; or remove it, which only a sweep does, and only when the job
    is older than the TTL at the sweep's clock reading. *)
Lemma step_record s s' id j :
  invariant s → proc_step s s' →
  read_job id (store (world s)) = Some j →
  read_job id (store (world s')) = Some j ∨
  (∃ ns nr ne t, is_Some (tasks s !! id) ∧
     read_job id (store (world s')) = Some (apply_update ns nr ne t j)) ∨
  (∃ now,
     s' = mkSystem (thread_world (cleanup_round job_store_cleanup now (world s)))
                   (tasks s) (issued s) ∧
     read_job id (store (world s')) = None ∧
     created_at j < now - _ttl_seconds (store (world s))).
Proof.
  intros Hinv Hstep Hj. destruct Hstep as
    [s uuid tc tu trace crew_name payload meta Hfresh _
    |s id0 k t Hk Hph
    |s id0 k t Hk Hph
    |s now]; cbn [world].
  - left.
    change (store (submit_async uuid tc tu trace crew_name (world s)))
      with (create_job uuid tc tu trace crew_name (store (world s))).2.
    rewrite read_job_create_job.
    + case_decide as Hid; [|done].
      subst. exfalso. apply Hfresh, (inv_issued s Hinv). left.
      rewrite read_job_unfold in Hj.
      destruct (_jobs (store (world s)) !! uuid); [eauto|done].
    + intros i p Hp. destruct (inv_owned s Hinv i p Hp) as (? & -> & _). eauto.
  - rewrite run_job_begin_store. destruct (decide (id = id0)) as [->|Hne].
    + right; left. exists (Some RUNNING), None, None, t. split; [by rewrite Hk|].
      by rewrite read_job_update_job, Hj.
    + left. by rewrite (read_job_update_job_ne s id0 id).
  - rewrite step_end_store.
    destruct ((run_job_work _ _ _ _ (task_crew k) (task_payload k) (task_meta k)
                 (task_trace k) (world s)).1) as [e|res].
    + destruct (isinstance e "Exception"); [|by left].
      destruct (decide (id = id0)) as [->|Hne].
      * right; left. exists (Some FAILED), None, (Some EXECUTION_ERROR), t.
        split; [by rewrite Hk|]. by rewrite read_job_update_job, Hj.
      * left. by rewrite (read_job_update_job_ne s id0 id).
    + destruct (decide (id = id0)) as [->|Hne].
      * right; left. exists (Some DONE), (Some res), None, t.
        split; [by rewrite Hk|]. by rewrite read_job_update_job, Hj.
      * left. by rewrite (read_job_update_job_ne s id0 id).
  - rewrite cleanup_round_store, read_job_after_cleanup, Hj.
    case_bool_decide; [|by left].
    right; right. by exists now.
Qed.

Lemma step_ttl s s' :
  proc_step s s' → _ttl_seconds (store (world s')) = _ttl_seconds (store (world s)).
Proof.
  intros Hstep. destruct Hstep as
    [s uuid tc tu trace crew_name payload meta Hfresh _
    |s id0 k t Hk Hph
    |s id0 k t Hk Hph
    |s now]; cbn [world].
  - done.
  - by rewrite run_job_begin_store, update_job_ttl.
  - rewrite step_end_store.
    destruct ((run_job_work _ _ _ _ (task_crew k) (task_payload k) (task_meta k)
                 (task_trace k) (world s)).1) as [e|res];
      [destruct (isinstance e "Exception")|]; by rewrite ?update_job_ttl.
  - by rewrite cleanup_round_store.
Qed.

Lemma reachable_ttl s : proc_reachable s → _ttl_seconds (store (world s)) = 3600.
Proof.
  unfold reachable. revert s. apply rtc_ind_r; [done|].
  intros y z _ Hstep IH. by rewrite (step_ttl y z).
Qed.

(** X5.  Across any step of the process a job either stays in the store
    with the same [job_id], [trace_id], [crew] and [created_at], or it
    has left the store, and then the step was a round of the reaper
    whose sweep read a clock value more than 3600 past the job's
    [created_at]. *)
Theorem job_identity_is_fixed_until_swept s s' id j :
  proc_reachable s → proc_step s s' →
  read_job id (store (world s)) = Some j →
  (∃ j', read_job id (store (world s')) = Some j' ∧
         job_id j' = job_id j ∧ trace_id j' = trace_id j ∧
         crew j' = crew j ∧ created_at j' = created_at j) ∨
  (read_job id (store (world s')) = None ∧
   ∃ now,
     s' = mkSystem (thread_world (cleanup_round job_store_cleanup now (world s)))
                   (tasks s) (issued s) ∧
     store (world s') = (cleanup_old_jobs now (store (world s))).2 ∧
     created_at j + 3600 < now).
Proof.
  intros Hreach Hstep Hj.
  pose proof (reachable_invariant _ _ _ _ s Hreach) as Hinv.
  pose proof (reachable_ttl s Hreach) as Httl.
  destruct (step_record s s' id j Hinv Hstep Hj)
    as [H|[(ns & nr & ne & t & _ & H)|(now & Hs' & H & Hold)]].
  - left. by exists j.
  - left. exists (apply_update ns nr ne t j). split; [done|].
    by destruct (apply_update_frame ns nr ne t j) as (-> & -> & -> & -> & _).
  - right. split; [done|]. exists now. split; [done|]. split; [|lia].
    rewrite Hs'. cbn [world]. apply cleanup_round_store.
Qed.

(** X6.  A DONE or FAILED record is final: across any step of the
    process it stays exactly as it is (status, result, error and time
    stamps included) until a sweep removes it. *)
Theorem terminal_record_is_final s s' id j :
  proc_reachable s → proc_step s s' →
  read_job id (store (world s)) = Some j →
  status j = DONE ∨ status j = FAILED →
  read_job id (store (world s')) = Some j ∨ read_job id (store (world s')) = None.
Proof.
  intros Hreach Hstep Hj Hterm.
  pose proof (reachable_invariant _ _ _ _ s Hreach) as Hinv.
  destruct (step_record s s' id j Hinv Hstep Hj)
    as [H|[(ns & nr & ne & t & [k Hk] & _)|(now & _ & H & _)]]; [by left| |by right].
  exfalso. destruct (inv_shape s Hinv id j Hj) as [_ Hag].
  unfold agrees in Hag. rewrite Hk in Hag. simpl in Hag.
  destruct (task_phase k), Hterm; congruence.
Qed.

(** X7.  In every state of the process the record stored under an id
    carries that id as its [job_id], and a job that is QUEUED or RUNNING
    has neither a result nor an error. *)
Theorem pending_job_has_no_result_nor_error s id j :
  proc_reachable s →
  read_job id (store (world s)) = Some j →
  job_id j = id ∧
  (status j = QUEUED ∨ status j = RUNNING → result j = None ∧ error j = None).
Proof.
  intros Hreach Hj.
  pose proof (reachable_invariant _ _ _ _ s Hreach) as Hinv.
  split.
  - rewrite read_job_unfold in Hj.
    destruct (_jobs (store (world s)) !! id) as [p|] eqn:Hp; [|done]. simpl in Hj.
    destruct (inv_owned s Hinv id p Hp) as (j' & Hj' & Hid). congruence.
  - destruct (inv_shape s Hinv id j Hj) as [Hsh _]. unfold well_shaped in Hsh.
    intros [Hs|Hs]; by rewrite Hs in Hsh.
Qed.

Lemma step_absent_stays s s' id :
  proc_step s s' → id ∈ issued s →
  _jobs (store (world s)) !! id = None →
  _jobs (store (world s')) !! id = None ∧ id ∈ issued s'.
Proof.
  intros Hstep Hin Hno. destruct Hstep as
    [s uuid tc tu trace crew_name payload meta Hfresh _
    |s id0 k t Hk Hph
    |s id0 k t Hk Hph
    |s now]; cbn [world issued].
  - split; [|set_solver]. simpl. rewrite lookup_insert_ne; [done|].
    intros ->. done.
  - by rewrite run_job_begin_store, update_job_jobs.
  - rewrite step_end_store. split; [|done].
    destruct ((run_job_work _ _ _ _ (task_crew k) (task_payload k) (task_meta k)
                 (task_trace k) (world s)).1) as [e|res];
      [destruct (isinstance e "Exception")|]; by rewrite ?update_job_jobs.
  - rewrite cleanup_round_store, cleanup_old_jobs_lookup. by rewrite Hno.
Qed.

(** X8.  A job id that was handed out and is no longer in the store
    (its job was swept) is never in the store again, whatever the
    process does afterwards: the dispatcher thread of a swept job, when
    it comes to its updates, does not bring the record back. *)
Theorem swept_job_never_returns s s' id :
  rtc proc_step s s' → id ∈ issued s →
  get_job id (store (world s)) = None →
  get_job id (store (world s')) = None.
Proof.
  unfold get_job. intros Hsteps Hin Hno.
  assert (_jobs (store (world s')) !! id = None ∧ id ∈ issued s') as [H _]; [|done].
  revert s' Hsteps. apply rtc_ind_r; [done|].
  intros y z _ Hstep [Hy Hiy]. by apply (step_absent_stays y z).
Qed.
End ProcessFacts.

Lemma system_running_finishes :
  step crew_ok crew_ok crew_ok crew_ok system_running system_done.
Proof.
  by apply (step_end _ _ _ _ system_running "job-1"
              (mark (mkTask "marketing" [("topic", "x")] None "trace-1" Started)) 120).
Qed.

Lemma system_running_swept :
  step crew_ok crew_ok crew_ok crew_ok system_running system_swept.
Proof. apply (step_sweep _ _ _ _ system_running 4000). Qed.

Lemma system_swept_finishes :
  step crew_ok crew_ok crew_ok crew_ok system_swept system_swept_finished.
Proof.
  by apply (step_end _ _ _ _ system_swept "job-1"
              (mark (mkTask "marketing" [("topic", "x")] None "trace-1" Started)) 4100).
Qed.

Lemma job_identity_is_fixed_until_swept_witness :
  ((∃ j', read_job "job-1" (store (world system_done)) = Some j' ∧
          job_id j' = "job-1" ∧ trace_id j' = "trace-1" ∧
          crew j' = "marketing" ∧ created_at j' = 100) ∨
   (read_job "job-1" (store (world system_done)) = None ∧
    ∃ now,
      system_done
        = mkSystem (thread_world (cleanup_round job_store_cleanup now
                                    (world system_running)))
                   (tasks system_running) (issued system_running) ∧
      store (world system_done)
        = (cleanup_old_jobs now (store (world system_running))).2 ∧
      100 + 3600 < now)) ∧
  ((∃ j', read_job "job-1" (store (world system_swept)) = Some j' ∧
          job_id j' = "job-1" ∧ trace_id j' = "trace-1" ∧
          crew j' = "marketing" ∧ created_at j' = 100) ∨
   (read_job "job-1" (store (world system_swept)) = None ∧
    ∃ now,
      system_swept
        = mkSystem (thread_world (cleanup_round job_store_cleanup now
                                    (world system_running)))
                   (tasks system_running) (issued system_running) ∧
      store (world system_swept)
        = (cleanup_old_jobs now (store (world system_running))).2 ∧
      100 + 3600 < now)).
Proof.
  split.
  - exact (job_identity_is_fixed_until_swept crew_ok crew_ok crew_ok crew_ok
             system_running system_done "job-1"
             (mkJob "job-1" "trace-1" "marketing" RUNNING None None 100 110)
             system_running_reachable system_running_finishes eq_refl).
  - exact (job_identity_is_fixed_until_swept crew_ok crew_ok crew_ok crew_ok
             system_running system_swept "job-1"
             (mkJob "job-1" "trace-1" "marketing" RUNNING None None 100 110)
             system_running_reachable system_running_swept eq_refl).
Defined.

Lemma terminal_record_is_final_witness :
  read_job "job-1"
    (store (world (mkSystem
       (thread_world (cleanup_round job_store_cleanup 3000 (world system_done)))
       (tasks system_done) (issued system_done))))
    = Some (mkJob "job-1" "trace-1" "marketing" DONE (Some [("output", "ok")]) None 100 120) ∨
  read_job "job-1"
    (store (world (mkSystem
       (thread_world (cleanup_round job_store_cleanup 3000 (world system_done)))
       (tasks system_done) (issued system_done))))
    = None.
Proof.
  apply (terminal_record_is_final crew_ok crew_ok crew_ok crew_ok system_done).
  - apply system_done_reachable.
  - apply (step_sweep _ _ _ _ system_done 3000).
  - reflexivity.
  - by left.
Defined.

Lemma pending_job_has_no_result_nor_error_witness :
  job_id (mkJob "job-1" "trace-1" "marketing" RUNNING None None 100 110) = "job-1" ∧
  (RUNNING = QUEUED ∨ RUNNING = RUNNING →
   (None : option Dict) = None ∧ (None : option Dict) = None).
Proof.
  exact (pending_job_has_no_result_nor_error crew_ok crew_ok crew_ok crew_ok
           system_running "job-1"
           (mkJob "job-1" "trace-1" "marketing" RUNNING None None 100 110)
           system_running_reachable eq_refl).
Defined.

Lemma swept_job_never_returns_witness :
  "job-1" ∈ issued system_swept ∧
  get_job "job-1" (store (world system_swept)) = None ∧
  get_job "job-1" (store (world system_swept_finished)) = None.
Proof.
  assert ("job-1" ∈ issued system_swept) as Hin by (simpl; set_solver).
  split; [exact Hin|]. split; [reflexivity|].
  apply (swept_job_never_returns crew_ok crew_ok crew_ok crew_ok system_swept).
  - apply rtc_once, system_swept_finishes.
  - exact Hin.
  - reflexivity.
Defined.

(* ===================================================================== *)
(** * The choice of the LLM *)
(* ===================================================================== *)

Lemma prefix_append p s : String.prefix p (p +:+ s) = true.
Proof.
  induction p as [|a p IH]; simpl; [by destruct s|].
  by destruct (Ascii.ascii_dec a a).
Qed.

Lemma with_prefix_startswith p model : startswith (with_prefix p model) p = true.
Proof.
  unfold with_prefix. destruct (startswith model p) eqn:H; simpl; [done|].
  apply prefix_append.
Qed.

Lemma with_prefix_idem p model : with_prefix p (with_prefix p model) = with_prefix p model.
Proof.
  unfold with_prefix at 1. by rewrite with_prefix_startswith.
Qed.

Lemma Provider_value_cases p :
  Provider_value p = "anthropic" ∨ Provider_value p = "google" ∨
  Provider_value p = "deepseek".
Proof. destruct p; simpl; auto. Qed.

Lemma provider_names p :
  p ∈ ["anthropic"; "google"; "deepseek"] ↔
  p = "anthropic" ∨ p = "google" ∨ p = "deepseek".
Proof. rewrite !elem_of_cons, elem_of_nil. tauto. Qed.

(** X9.  [_get_crewai_llm], for a [meta] with string values, takes the
    provider from [meta["llm_provider"]] and otherwise from the
    settings.  For a provider name other than anthropic, google and
    deepseek it raises [ValueError] naming the provider.  Whenever it
    returns, the provider name it returns is the name so chosen and one
    of the three, the model name is [meta["model"]] or else the model
    the settings give for that provider, and the LLM was built with the
    settings' timeout and temperature 0.7. *)
Theorem get_crewai_llm_provider meta settings :
  let provider := resolve_provider (meta_or_empty meta) settings in
  (provider ∉ ["anthropic"; "google"; "deepseek"] →
   _get_crewai_llm meta settings
     = inl (ValueError ("Unknown LLM provider: " +:+ provider))) ∧
  (∀ llm name model,
     _get_crewai_llm meta settings = inr (llm, name, model) →
     name = provider ∧
     provider ∈ ["anthropic"; "google"; "deepseek"] ∧
     model = default (if bool_decide (provider = "anthropic") then anthropic_model settings
                      else if bool_decide (provider = "google") then gemini_model settings
                      else deepseek_model settings)
                     (dict_get "model" (meta_or_empty meta)) ∧
     llm_timeout llm = request_timeout_seconds settings ∧
     llm_temperature llm = "0.7").
Proof.
  intros provider. unfold _get_crewai_llm. fold provider. clearbody provider.
  split.
  - rewrite provider_names. intros Hout.
    repeat case_bool_decide; try done; exfalso; tauto.
  - intros llm name model. rewrite provider_names.
    repeat case_bool_decide; intros [= <- <- <-]; subst; simpl; split_and!;
      try done; tauto.
Qed.

Lemma get_crewai_llm_provider_witness :
  _get_crewai_llm (Some meta_unknown) (Settings_defaults "k")
    = inl (ValueError "Unknown LLM provider: openai") ∧
  "google" = resolve_provider (meta_or_empty (Some meta_google)) (Settings_defaults "k") ∧
  "gemini-1.5-pro" = default "gemini-2.0-flash" (Some "gemini-1.5-pro").
Proof.
  destruct (get_crewai_llm_provider (Some meta_unknown) (Settings_defaults "k"))
    as (Hbad & _).
  destruct (get_crewai_llm_provider (Some meta_google) (Settings_defaults "k"))
    as (_ & Hok).
  split.
  - apply Hbad. rewrite provider_names. by intros [|[|]].
  - destruct (Hok (mkLLM "gemini/gemini-1.5-pro" "0.7" 90) "google" "gemini-1.5-pro"
                  eq_refl) as (Hname & _ & Hmodel & _).
    split; [exact Hname|exact Hmodel].
Defined.

(** X10.  The model name given to the LLM: for anthropic it is the model
    name as it is; for google and deepseek it always starts with
    "gemini/" or "deepseek/", the prefix being added only when the name
    does not start with it already, so that a name that went through
    once is not changed by going through again. *)
Theorem get_crewai_llm_model_prefix meta settings llm provider model :
  _get_crewai_llm meta settings = inr (llm, provider, model) →
  (provider = "anthropic" ∧ llm_model llm = model) ∨
  (provider = "google" ∧ llm_model llm = with_prefix "gemini/" model ∧
   startswith (llm_model llm) "gemini/" = true ∧
   with_prefix "gemini/" (llm_model llm) = llm_model llm ∧
   (startswith model "gemini/" = true → llm_model llm = model)) ∨
  (provider = "deepseek" ∧ llm_model llm = with_prefix "deepseek/" model ∧
   startswith (llm_model llm) "deepseek/" = true ∧
   with_prefix "deepseek/" (llm_model llm) = llm_model llm ∧
   (startswith model "deepseek/" = true → llm_model llm = model)).
Proof.
  unfold _get_crewai_llm. repeat case_bool_decide; intros [= <- <- <-]; simpl.
  - left. done.
  - right; left. split_and!; [done|done|apply with_prefix_startswith
                             |apply with_prefix_idem|].
    intros Hpre. unfold with_prefix. by rewrite Hpre.
  - right; right. split_and!; [done|done|apply with_prefix_startswith
                              |apply with_prefix_idem|].
    intros Hpre. unfold with_prefix. by rewrite Hpre.
Qed.

Lemma get_crewai_llm_model_prefix_witness :
  _get_crewai_llm (Some meta_google) (Settings_defaults "k")
    = inr (mkLLM "gemini/gemini-1.5-pro" "0.7" 90, "google", "gemini-1.5-pro") ∧
  startswith "gemini/gemini-1.5-pro" "gemini/" = true.
Proof.
  split; [reflexivity|].
  destruct (get_crewai_llm_model_prefix (Some meta_google) (Settings_defaults "k")
              (mkLLM "gemini/gemini-1.5-pro" "0.7" 90) "google" "gemini-1.5-pro" eq_refl)
    as [[H _]|[(_ & _ & H & _)|[H _]]]; [discriminate|exact H|discriminate].
Defined.

(** X11.  [get_llm] returns a wrapper only for the providers anthropic
    and google, and only when the API key of that provider is set and
    not empty; the wrapper then carries that key and the settings'
    timeout.  For deepseek, which is the default provider of the
    settings, it raises [ValueError]: with the default settings and no
    provider in [meta], [get_llm] fails whatever keys are configured. *)
Theorem get_llm_needs_key_and_known_provider meta settings :
  (∀ llm, get_llm meta settings = inr llm →
     (resolve_provider (meta_or_empty meta) settings = "anthropic" ∧
      ∃ key model, llm = AnthropicLLM key model (request_timeout_seconds settings) ∧
                   anthropic_api_key settings = Some key ∧ key ≠ "") ∨
     (resolve_provider (meta_or_empty meta) settings = "google" ∧
      ∃ key model, llm = GeminiLLM key model (request_timeout_seconds settings) ∧
                   google_api_key settings = Some key ∧ key ≠ "")) ∧
  (resolve_provider (meta_or_empty meta) settings = "deepseek" →
   get_llm meta settings = inl (ValueError "Unknown LLM provider: deepseek")) ∧
  (default_llm_provider settings = deepseek →
   dict_get "llm_provider" (meta_or_empty meta) = None →
   get_llm meta settings = inl (ValueError "Unknown LLM provider: deepseek")).
Proof.
  assert (∀ o key, configured o = Some key → o = Some key ∧ key ≠ "") as Hconf.
  { intros [[|a s]|] key; simpl; intros [= <-]; done. }
  split_and!.
  - intros llm. unfold get_llm. repeat case_bool_decide.
    + destruct (configured (anthropic_api_key settings)) as [key|] eqn:Hk; [|done].
      intros [= <-]. left. split; [done|]. apply Hconf in Hk as [-> ?].
      by eexists _, _.
    + destruct (configured (google_api_key settings)) as [key|] eqn:Hk; [|done].
      intros [= <-]. right. split; [done|]. apply Hconf in Hk as [-> ?].
      by eexists _, _.
    + done.
  - intros Hp. unfold get_llm. rewrite Hp. done.
  - intros Hd Hno. unfold get_llm, resolve_provider. rewrite Hno, Hd. done.
Qed.

Lemma get_llm_needs_key_and_known_provider_witness :
  get_llm None (Settings_defaults "k")
    = inl (ValueError "Unknown LLM provider: deepseek") ∧
  get_llm (Some meta_google) (Settings_defaults "k")
    = inl (ValueError "GOOGLE_API_KEY is not configured").
Proof.
  destruct (get_llm_needs_key_and_known_provider None (Settings_defaults "k"))
    as (_ & _ & H).
  split; [by apply H|reflexivity].
Defined.

(* ===================================================================== *)
(** * The endpoints *)
(* ===================================================================== *)

Lemma require_api_key_accepts header settings :
  require_api_key header settings = None ↔ header = Some (api_key settings).
Proof.
  unfold require_api_key. destruct header as [v|]; [|done].
  case_bool_decide as H; split; try done.
  - intros [= ->]. done.
  - intros _. f_equal. by destruct (decide (v = api_key settings)).
Qed.

Lemma require_api_key_rejects header settings exc :
  require_api_key header settings = Some exc → status_code exc = 401.
Proof.
  unfold require_api_key. destruct header as [v|]; [case_bool_decide|];
    by intros [= <-].
Qed.

Lemma read_job_create_job_same uuid t1 t2 trace crew_name st :
  read_job uuid (create_job uuid t1 t2 trace crew_name st).2
    = Some (mkJob uuid trace crew_name QUEUED None None t1 t2).
Proof.
  rewrite read_job_unfold. simpl. rewrite lookup_insert_eq. simpl.
  by rewrite lookup_app_r, Nat.sub_diag.
Qed.

Section EndpointFacts.
Variables MarketingCrew SupportCrew AnalysisCrew SocialMediaCrew : WorkUnit.

Abbreviation crews := (CREW_MAP MarketingCrew SupportCrew AnalysisCrew SocialMediaCrew).
Abbreviation post_run := (run_crew MarketingCrew SupportCrew AnalysisCrew SocialMediaCrew).
Abbreviation dispatch :=
  (_run_crew_job MarketingCrew SupportCrew AnalysisCrew SocialMediaCrew).

(** X12.  Authentication comes first in both endpoints.  A request whose
    X-API-Key header is missing or differs from the configured key is
    answered with 401 by [run_crew] and by [get_job]: no crew is run, no
    job is created, no thread is started and the store is untouched; the
    job endpoint answers 401 whether or not the job exists.  The only
    trace of the request is the log record of its arrival. *)
Theorem endpoints_reject_bad_key
    crew_name input meta key async_mode settings trace uuid tc tu w id :
  key ≠ Some (api_key settings) →
  let h := post_run crew_name input meta key async_mode settings trace uuid tc tu w in
  (∃ exc, response h = inl (HTTP exc) ∧ status_code exc = 401) ∧
  store (world_after h) = store w ∧
  started h = None ∧
  events (world_after h) =
    events w ++ [Log "INFO" trace ("Received request for crew: " +:+ crew_name +:+
                                   " (async=" +:+ bool_str async_mode +:+ ")")] ∧
  (∃ exc, main_get_job id key settings w = inl exc ∧ status_code exc = 401).
Proof.
  intros Hkey. cbv zeta. unfold run_crew, main_get_job.
  destruct (require_api_key key settings) as [exc|] eqn:Hreq.
  - pose proof (require_api_key_rejects _ _ _ Hreq). simpl. split_and!; eauto.
  - by apply require_api_key_accepts in Hreq.
Qed.

(** X13.  [run_crew] starts a dispatcher thread only for an
    authenticated asynchronous request for a crew of [CREW_MAP]; the
    thread gets the id of the job just created, which the store then
    holds as QUEUED with the request's trace id and crew, and the
    request's own input and metadata.  A request that starts no thread
    leaves the store as it was, whatever its answer. *)
Theorem run_crew_starts_thread_only_with_job
    crew_name input meta key async_mode settings trace uuid tc tu w :
  let h := post_run crew_name input meta key async_mode settings trace uuid tc tu w in
  (∀ id k, started h = Some (id, k) →
     key = Some (api_key settings) ∧ async_mode = true ∧
     is_Some (crews !! crew_name) ∧
     id = uuid ∧ k = mkTask crew_name input meta trace Started ∧
     read_job id (store (world_after h))
       = Some (mkJob uuid trace crew_name QUEUED None None tc tu)) ∧
  (started h = None → store (world_after h) = store w).
Proof.
  cbv zeta. unfold run_crew.
  destruct (require_api_key key settings) as [exc|] eqn:Hreq; [by split|].
  apply require_api_key_accepts in Hreq.
  destruct (crews !! crew_name) as [crew_class|] eqn:Hcrew; [|by split].
  destruct async_mode.
  - split; [|done]. intros id k [= <- <-]. split_and!; try done.
    apply read_job_create_job_same.
  - destruct (crew_class input meta trace) as [e|res];
      [destruct (isinstance e "Exception")|]; by split.
Qed.

(** X14.  A request for a crew that is not in [CREW_MAP], once
    authenticated, is answered with [ok: False] and the error code
    CREW_NOT_FOUND, in synchronous and asynchronous mode alike, without
    creating a job or running anything. *)
Theorem run_crew_unknown_crew
    crew_name input meta async_mode settings trace uuid tc tu w :
  crews !! crew_name = None →
  let h := post_run crew_name input meta (Some (api_key settings)) async_mode
                    settings trace uuid tc tu w in
  response h =
    inr (PyDict [("ok", PyBool false); ("crew", PyStr crew_name);
                 ("trace_id", PyStr trace);
                 ("error", PyDict [("code", PyStr "CREW_NOT_FOUND");
                                   ("message", PyStr ("Crew '" +:+ crew_name +:+
                                                      "' not found"))])]) ∧
  store (world_after h) = store w ∧
  started h = None ∧
  invocations (drop (length (events w)) (events (world_after h))) = [].
Proof.
  intros Hcrew. cbv zeta. unfold run_crew.
  assert (require_api_key (Some (api_key settings)) settings = None) as ->
    by by apply require_api_key_accepts.
  destruct (crews !! crew_name) as [c|] eqn:E; [exfalso; congruence|].
  simpl. split_and!; try done.
  by rewrite <- app_assoc, drop_app_length.
Qed.

(** X15.  An authenticated synchronous request for a known crew runs
    the crew once in the request itself and never touches the store.  A
    result comes back under "result" with [ok: True]; any [Exception]
    comes back as [ok: False] with the constant EXECUTION_ERROR
    dictionary, in which nothing of the exception occurs, so that two
    different failures get the same response. *)
Theorem run_crew_sync
    crew_name crew_class input meta settings trace uuid tc tu w :
  crews !! crew_name = Some crew_class →
  let h := post_run crew_name input meta (Some (api_key settings)) false
                    settings trace uuid tc tu w in
  store (world_after h) = store w ∧
  started h = None ∧
  invocations (drop (length (events w)) (events (world_after h)))
    = [Invoke crew_name input meta trace] ∧
  (∀ res, crew_class input meta trace = inr res →
     response h = inr (PyDict [("ok", PyBool true); ("crew", PyStr crew_name);
                               ("trace_id", PyStr trace);
                               ("result", PyVal_of_Dict res); ("error", PyNone)])) ∧
  (∀ e, crew_class input meta trace = inl e → isinstance e "Exception" = true →
     response h = inr (PyDict [("ok", PyBool false); ("crew", PyStr crew_name);
                               ("trace_id", PyStr trace);
                               ("result", PyNone);
                               ("error", PyVal_of_Dict EXECUTION_ERROR)])).
Proof.
  intros Hcrew. cbv zeta. unfold run_crew.
  assert (require_api_key (Some (api_key settings)) settings = None) as ->
    by by apply require_api_key_accepts.
  destruct (crews !! crew_name) as [c|] eqn:E; [|exfalso; congruence].
  assert (c = crew_class) as -> by congruence.
  destruct (crew_class input meta trace) as [e|res] eqn:Hout;
    [destruct (isinstance e "Exception") eqn:He|]; simpl.
  all: split_and!; try done; try (by intros ? [= <-]); try congruence.
  all: by rewrite <- ?app_assoc, drop_app_length.
Qed.
End EndpointFacts.

Section EndToEnd.
Variables MarketingCrew SupportCrew AnalysisCrew SocialMediaCrew : WorkUnit.

Abbreviation e2e_crews := (CREW_MAP MarketingCrew SupportCrew AnalysisCrew SocialMediaCrew).
Abbreviation e2e_post := (run_crew MarketingCrew SupportCrew AnalysisCrew SocialMediaCrew).
Abbreviation e2e_dispatch :=
  (_run_crew_job MarketingCrew SupportCrew AnalysisCrew SocialMediaCrew).

End EndToEnd.

Lemma endpoints_reject_bad_key_witness :
  Some "guess" ≠ Some (api_key settings_secret) ∧
  started (run_crew crew_ok crew_ok crew_ok crew_ok "marketing" [("topic", "x")] None
             (Some "guess") true settings_secret "trace-7" "job-7" 200 200
             world_one_job) = None ∧
  ∃ exc, main_get_job "job-1" (Some "guess") settings_secret world_one_job = inl exc ∧
         status_code exc = 401.
Proof.
  assert (Some "guess" ≠ Some (api_key settings_secret)) as Hne by discriminate.
  split; [exact Hne|].
  destruct (endpoints_reject_bad_key crew_ok crew_ok crew_ok crew_ok
              "marketing" [("topic", "x")] None (Some "guess") true settings_secret
              "trace-7" "job-7" 200 200 world_one_job "job-1" Hne)
    as (_ & _ & Hst & _ & Hget).
  split; [exact Hst|exact Hget].
Defined.

Lemma run_crew_starts_thread_only_with_job_witness :
  started (run_crew crew_ok crew_ok crew_ok crew_ok "marketing" [("topic", "x")] None
             (Some "secret") true settings_secret "trace-7" "job-7" 200 200
             world_one_job)
    = Some ("job-7", mkTask "marketing" [("topic", "x")] None "trace-7" Started) ∧
  read_job "job-7"
    (store (world_after
       (run_crew crew_ok crew_ok crew_ok crew_ok "marketing" [("topic", "x")] None
          (Some "secret") true settings_secret "trace-7" "job-7" 200 200
          world_one_job)))
    = Some (mkJob "job-7" "trace-7" "marketing" QUEUED None None 200 200).
Proof.
  assert (started (run_crew crew_ok crew_ok crew_ok crew_ok "marketing" [("topic", "x")]
                     None (Some "secret") true settings_secret "trace-7" "job-7" 200 200
                     world_one_job)
          = Some ("job-7", mkTask "marketing" [("topic", "x")] None "trace-7" Started))
    as Hstarted by (vm_compute; reflexivity).
  split; [exact Hstarted|].
  destruct (run_crew_starts_thread_only_with_job crew_ok crew_ok crew_ok crew_ok
              "marketing" [("topic", "x")] None (Some "secret") true settings_secret
              "trace-7" "job-7" 200 200 world_one_job) as [H _].
  destruct (H _ _ Hstarted) as (_ & _ & _ & _ & _ & Hread). exact Hread.
Defined.

Lemma run_crew_unknown_crew_witness :
  CREW_MAP crew_ok crew_ok crew_ok crew_ok !! "finance" = None ∧
  started (run_crew crew_ok crew_ok crew_ok crew_ok "finance" [] None
             (Some (api_key settings_secret)) true settings_secret "trace-7" "job-7"
             200 200 world_one_job) = None.
Proof.
  assert (CREW_MAP crew_ok crew_ok crew_ok crew_ok !! "finance" = None) as Hno
    by (vm_compute; reflexivity).
  split; [exact Hno|].
  destruct (run_crew_unknown_crew crew_ok crew_ok crew_ok crew_ok
              "finance" [] None true settings_secret "trace-7" "job-7" 200 200
              world_one_job Hno) as (_ & _ & H & _).
  exact H.
Defined.

Lemma run_crew_sync_witness :
  CREW_MAP crew_ok crew_fatal crew_ok crew_ok !! "support" = Some crew_fatal ∧
  response (run_crew crew_ok crew_fatal crew_ok crew_ok "support" [("issue", "x")] None
              (Some (api_key settings_secret)) false settings_secret "trace-7" "job-7"
              200 200 world_one_job)
    = inr (PyDict [("ok", PyBool false); ("crew", PyStr "support");
                   ("trace_id", PyStr "trace-7"); ("result", PyNone);
                   ("error", PyVal_of_Dict EXECUTION_ERROR)]).
Proof.
  assert (CREW_MAP crew_ok crew_fatal crew_ok crew_ok !! "support" = Some crew_fatal)
    as Hcrew by (vm_compute; reflexivity).
  split; [exact Hcrew|].
  destruct (run_crew_sync crew_ok crew_fatal crew_ok crew_ok
              "support" crew_fatal [("issue", "x")] None settings_secret
              "trace-7" "job-7" 200 200 world_one_job Hcrew) as (_ & _ & _ & _ & H).
  apply (H (PyExc "AuthenticationError" exception_bases
                  "401 Unauthorized: invalid x-api-key")); reflexivity.
Defined.


(* ===================================================================== *)
(** * The crews with one agent *)
(* ===================================================================== *)

Lemma get_crewai_llm_unknown meta settings :
  resolve_provider (meta_or_empty meta) settings ∉ ["anthropic"; "google"; "deepseek"] →
  _get_crewai_llm meta settings
    = inl (ValueError ("Unknown LLM provider: " +:+
                       resolve_provider (meta_or_empty meta) settings)).
Proof.
  rewrite provider_names. intros Hout. unfold _get_crewai_llm.
  repeat case_bool_decide; try done; exfalso; tauto.
Qed.

Lemma get_crewai_llm_known meta settings r :
  _get_crewai_llm meta settings = inr r →
  resolve_provider (meta_or_empty meta) settings ∈ ["anthropic"; "google"; "deepseek"].
Proof.
  rewrite provider_names. unfold _get_crewai_llm.
  repeat case_bool_decide; try done; tauto.
Qed.

Section CrewRunFacts.
Context {W : Type}.
Variable kickoff : Crew → W → (Exc + CrewOutput) * W.

(** X17.  [run] of the marketing, support and analysis crews always
    returns or raises, and checks its input before it calls the
    provider: a payload without the required field raises [ValueError]
    naming the field, and a provider name that is not known raises
    [ValueError] naming the provider, in both cases without a single
    kickoff and with the provider state untouched; the missing field is
    reported first.  A run never makes more than two kickoffs. *)
Theorem crew_run_validates_before_kickoff text settings payload meta trace w :
  ∃ r, crew_run kickoff text settings payload meta trace w = Some r ∧
    (kickoffs r ≤ 2)%nat ∧
    (dict_get (required_field text) payload = None →
     r = mkRan (inl (ValueError ("payload must contain '" +:+ required_field text +:+
                                 "' field"))) 0 w) ∧
    (is_Some (dict_get (required_field text) payload) →
     resolve_provider (meta_or_empty meta) settings ∉ ["anthropic"; "google"; "deepseek"] →
     r = mkRan (inl (ValueError ("Unknown LLM provider: " +:+
                                 resolve_provider (meta_or_empty meta) settings))) 0 w) ∧
    (kickoffs r ≠ 0%nat →
     is_Some (dict_get (required_field text) payload) ∧
     resolve_provider (meta_or_empty meta) settings ∈ ["anthropic"; "google"; "deepseek"]).
Proof.
  unfold crew_run.
  destruct (dict_get (required_field text) payload) as [required|] eqn:Hreq.
  - destruct (_get_crewai_llm meta settings) as [e|[[llm provider] model]] eqn:Hllm.
    + eexists. split; [done|]. simpl. split_and!; [lia|done| |done].
      intros _ Hout. rewrite (get_crewai_llm_unknown _ _ Hout) in Hllm.
      by injection Hllm as <-.
    + pose proof (get_crewai_llm_known _ _ _ Hllm) as Hin.
      destruct (execute_crew_total
                  (kickoff (build_crew text required
                              (default (optional_default text)
                                       (dict_get (optional_field text) payload)) llm)) w)
        as (called & -> & Hcalls).
      destruct (tenacity.outcome called) as [e|output];
        (eexists; split; [done|]); simpl; (split_and!; [lia|done| |eauto]);
        intros _ Hout; done.
  - eexists. split; [done|]. simpl. split_and!; [lia|done| |done].
    by intros [? ?].
Qed.

(** X18.  A [run] whose checks pass builds a crew of one agent and one
    task, calls its kickoff under the retry decorator, and has no
    handler of its own.  A kickoff that succeeds, at once or after one
    transient failure, gives the result dictionary with the workflow
    name, the trace id, the provider and model names chosen, the output
    text and the two input fields (the optional one with its default).
    A failure that is not retried, and the [RetryError] after two
    transient failures, leave [run] as they are. *)
Theorem crew_run_result text settings payload meta trace w required llm provider model :
  dict_get (required_field text) payload = Some required →
  _get_crewai_llm meta settings = inr (llm, provider, model) →
  let optional :=
    default (optional_default text) (dict_get (optional_field text) payload) in
  let crew := build_crew text required optional llm in
  let answer (output : string) : Exc + PyVal :=
    inr (PyDict [("workflow", PyStr (workflow text)); ("trace_id", PyStr trace);
                 ("provider", PyStr provider); ("model", PyStr model);
                 ("output", PyStr output);
                 ("input_summary", PyDict [(required_field text, PyStr required);
                                           (optional_field text, PyStr optional)])]) in
  (∀ out w1, kickoff crew w = (inr out, w1) →
     crew_run kickoff text settings payload meta trace w
       = Some (mkRan (answer (output_text out)) 1 w1)) ∧
  (∀ e1 w1 out w2,
     kickoff crew w = (inl e1, w1) → transient e1 = true →
     kickoff crew w1 = (inr out, w2) →
     crew_run kickoff text settings payload meta trace w
       = Some (mkRan (answer (output_text out)) 2 w2)) ∧
  (∀ e w1, kickoff crew w = (inl e, w1) → transient e = false → try_again e = false →
     crew_run kickoff text settings payload meta trace w = Some (mkRan (inl e) 1 w1)) ∧
  (∀ e1 w1 e2 w2,
     kickoff crew w = (inl e1, w1) → transient e1 = true →
     kickoff crew w1 = (inl e2, w2) → transient e2 = true →
     crew_run kickoff text settings payload meta trace w
       = Some (mkRan (inl (RetryError e2)) 2 w2)).
Proof.
  intros Hreq Hllm optional crew answer. unfold crew_run. rewrite Hreq, Hllm.
  fold optional. fold crew. rewrite execute_crew_unfold.
  split_and!.
  - intros out w1 H1. by rewrite (execute_crew_body_return _ _ _ _ H1).
  - intros e1 w1 out w2 H1 Ht H2.
    rewrite (execute_crew_body_raise _ _ _ _ H1), Ht, orb_true_r. simpl.
    by rewrite (execute_crew_body_return _ _ _ _ H2).
  - intros e w1 H1 Ht Ha.
    rewrite (execute_crew_body_raise _ _ _ _ H1), Ht, Ha. done.
  - intros e1 w1 e2 w2 H1 Ht1 H2 Ht2.
    rewrite (execute_crew_body_raise _ _ _ _ H1), Ht1, orb_true_r. simpl.
    rewrite (execute_crew_body_raise _ _ _ _ H2), Ht2, orb_true_r. done.
Qed.
End CrewRunFacts.

Lemma crew_run_validates_before_kickoff_witness :
  dict_get (required_field support_text) [("topic", "tea")] = None ∧
  ∃ r, crew_run kickoff_echo support_text settings_secret [("topic", "tea")] None
         "trace-7" 0%nat = Some r ∧
       r = mkRan (inl (ValueError "payload must contain 'issue' field")) 0 0%nat.
Proof.
  split; [reflexivity|].
  destruct (crew_run_validates_before_kickoff kickoff_echo support_text settings_secret
              [("topic", "tea")] None "trace-7" 0%nat) as (r & Hr & _ & Hmiss & _).
  exists r. split; [exact Hr|]. by apply Hmiss.
Defined.

Lemma crew_run_result_witness :
  crew_run kickoff_echo marketing_text settings_secret [("topic", "tea")] None
    "trace-7" 0%nat
  = Some (mkRan
            (inr (PyDict
                    [("workflow", PyStr "marketing"); ("trace_id", PyStr "trace-7");
                     ("provider", PyStr "deepseek"); ("model", PyStr "deepseek-chat");
                     ("output",
                      PyStr "Create a short marketing message about 'tea' for general audience. Keep it concise and engaging.");
                     ("input_summary",
                      PyDict [("topic", PyStr "tea");
                              ("target_audience", PyStr "general audience")])]))
            1 1%nat).
Proof.
  destruct (crew_run_result kickoff_echo marketing_text settings_secret
              [("topic", "tea")] None "trace-7" 0%nat "tea"
              (mkLLM "deepseek/deepseek-chat" "0.7" 90) "deepseek" "deepseek-chat"
              eq_refl eq_refl) as (H & _).
  by rewrite (H _ _ eq_refl).
Defined.

(* ===================================================================== *)
(** * Frames and compositions *)
(* ===================================================================== *)

(** X19.  [create_job] adds one record and touches no other: the new id
    reads as the fresh QUEUED job, every other id reads as before, the
    references of the store stay allocated, and the number of jobs grows
    by one when the id was not in the store (an id already there has its
    record replaced and the number stays). *)
Theorem create_job_adds_one_record uuid t1 t2 trace crew_name st :
  allocated st →
  let st' := (create_job uuid t1 t2 trace crew_name st).2 in
  read_job uuid st' = Some (mkJob uuid trace crew_name QUEUED None None t1 t2) ∧
  (∀ id, id ≠ uuid → read_job id st' = read_job id st) ∧
  allocated st' ∧
  size (_jobs st') = (if decide (get_job uuid st = None)
                      then S (size (_jobs st)) else size (_jobs st)).
Proof.
  intros Hal. cbv zeta. split_and!.
  - apply read_job_create_job_same.
  - intros id Hne. rewrite read_job_create_job by done. by rewrite decide_False.
  - by apply allocated_create_job.
  - unfold get_job. simpl. rewrite map_size_insert.
    destruct (_jobs st !! uuid) as [p|] eqn:Hp;
      [by rewrite decide_False|by rewrite decide_True].
Qed.

Lemma create_job_adds_one_record_witness :
  allocated store_three_jobs ∧
  read_job "job-4" (create_job "job-4" 150 150 "trace-4" "analysis" store_three_jobs).2
    = Some (mkJob "job-4" "trace-4" "analysis" QUEUED None None 150 150) ∧
  read_job "job-1" (create_job "job-4" 150 150 "trace-4" "analysis" store_three_jobs).2
    = read_job "job-1" store_three_jobs.
Proof.
  split; [exact allocated_store_three_jobs|].
  destruct (create_job_adds_one_record "job-4" 150 150 "trace-4" "analysis"
              store_three_jobs allocated_store_three_jobs) as (Hnew & Hold & _).
  split; [exact Hnew|]. by apply Hold.
Defined.

(** X20.  A run of [_run_crew_job], whatever the crew does, never adds
    or removes an entry of the store's dictionary, never allocates, and
    never changes a Job object other than the one stored under its own
    job id; of that one it leaves [job_id], [trace_id], [crew] and
    [created_at] as they are. *)
Theorem run_crew_job_frame
    (M S A SM : WorkUnit) id crew_name payload meta trace t1 t2 w :
  let w' := (_run_crew_job M S A SM id crew_name payload meta trace t1 t2 w).2 in
  _jobs (store w') = _jobs (store w) ∧
  length (heap (store w')) = length (heap (store w)) ∧
  (∀ q, get_job id (store w) ≠ Some q → deref q (store w') = deref q (store w)) ∧
  (∀ j, read_job id (store w) = Some j →
     ∃ j', read_job id (store w') = Some j' ∧
           job_id j' = job_id j ∧ trace_id j' = trace_id j ∧
           crew j' = crew j ∧ created_at j' = created_at j).
Proof.
  cbv zeta. rewrite run_crew_job_unfold, run_job_end_store, run_job_work_store,
    run_job_begin_store.
  set (out := (run_job_work M S A SM crew_name payload meta trace
                 (run_job_begin id crew_name trace t1 w)).1).
  assert (∀ ns nr ne t (j : Job),
            job_id (apply_update ns nr ne t j) = job_id j ∧
            trace_id (apply_update ns nr ne t j) = trace_id j ∧
            crew (apply_update ns nr ne t j) = crew j ∧
            created_at (apply_update ns nr ne t j) = created_at j) as Hfr.
  { intros ns nr ne t j. destruct (apply_update_frame ns nr ne t j) as (?&?&?&?&_).
    done. }
  unfold get_job, deref.
  destruct out as [e|res]; [destruct (isinstance e "Exception")|].
  - split_and!.
    + by rewrite !update_job_jobs.
    + by rewrite !update_job_heap_length.
    + intros q Hq. rewrite !update_job_heap, update_job_jobs.
      by rewrite !decide_False.
    + intros j Hj. rewrite !read_job_update_job, Hj. simpl. eexists. split; [done|].
      destruct (Hfr (Some FAILED) None (Some EXECUTION_ERROR) t2
                    (apply_update (Some RUNNING) None None t1 j)) as (->&->&->&->).
      apply Hfr.
  - split_and!.
    + by rewrite !update_job_jobs.
    + by rewrite !update_job_heap_length.
    + intros q Hq. rewrite !update_job_heap. by rewrite !decide_False.
    + intros j Hj. rewrite !read_job_update_job, Hj. simpl. eexists. split; [done|].
      apply Hfr.
  - split_and!.
    + by rewrite !update_job_jobs.
    + by rewrite !update_job_heap_length.
    + intros q Hq. rewrite !update_job_heap, update_job_jobs.
      by rewrite !decide_False.
    + intros j Hj. rewrite !read_job_update_job, Hj. simpl. eexists. split; [done|].
      destruct (Hfr (Some DONE) (Some res) None t2
                    (apply_update (Some RUNNING) None None t1 j)) as (->&->&->&->).
      apply Hfr.
Qed.

Lemma run_crew_job_frame_witness :
  get_job "job-3" (store (mkWorld store_three_jobs [])) ≠ Some 0%nat ∧
  deref 0 (store (_run_crew_job crew_ok crew_fatal crew_ok crew_ok
                    "job-3" "support" [] None "trace-3" 150 160
                    (mkWorld store_three_jobs [])).2)
    = deref 0 (store (mkWorld store_three_jobs [])).
Proof.
  assert (get_job "job-3" (store (mkWorld store_three_jobs [])) ≠ Some 0%nat) as Hne
    by (vm_compute; discriminate).
  split; [exact Hne|].
  destruct (run_crew_job_frame crew_ok crew_fatal crew_ok crew_ok
              "job-3" "support" [] None "trace-3" 150 160 (mkWorld store_three_jobs []))
    as (_ & _ & H & _).
  by apply H.
Defined.

(** X21.  Polling after a sweep.  For an authenticated caller, a job
    that was older than the TTL at the sweep's clock reading is answered
    with 404 "not found" whatever its status was, RUNNING included; any
    other job is answered exactly as before the sweep. *)
Theorem poll_after_sweep id settings now st evs evs' :
  let key := Some (api_key settings) in
  let w := mkWorld st evs in
  let w' := mkWorld (cleanup_old_jobs now st).2 evs' in
  (∀ j, read_job id st = Some j → created_at j < now - _ttl_seconds st →
     main_get_job id key settings w'
       = inl (mkHTTPException 404 ("Job '" +:+ id +:+ "' not found"))) ∧
  (∀ j, read_job id st = Some j → now - _ttl_seconds st ≤ created_at j →
     main_get_job id key settings w' = main_get_job id key settings w) ∧
  (read_job id st = None →
     main_get_job id key settings w'
       = inl (mkHTTPException 404 ("Job '" +:+ id +:+ "' not found"))).
Proof.
  cbv zeta. unfold main_get_job.
  assert (require_api_key (Some (api_key settings)) settings = None) as ->
    by by apply require_api_key_accepts.
  cbn [store]. rewrite read_job_after_cleanup. split_and!.
  - intros j -> Hold. by rewrite bool_decide_eq_true_2.
  - intros j -> Hnew. rewrite bool_decide_eq_false_2; [done|lia].
  - by intros ->.
Qed.

Lemma poll_after_sweep_witness :
  read_job "job-3" store_three_jobs
    = Some (mkJob "job-3" "trace-3" "support" RUNNING None None 130 140) ∧
  130 < 3800 - _ttl_seconds store_three_jobs ∧
  main_get_job "job-3" (Some (api_key settings_secret)) settings_secret
    (mkWorld (cleanup_old_jobs 3800 store_three_jobs).2 [])
    = inl (mkHTTPException 404 "Job 'job-3' not found").
Proof.
  assert (read_job "job-3" store_three_jobs
          = Some (mkJob "job-3" "trace-3" "support" RUNNING None None 130 140)) as Hj
    by (vm_compute; reflexivity).
  assert (130 < 3800 - _ttl_seconds store_three_jobs) as Hold by (vm_compute; reflexivity).
  split; [exact Hj|]. split; [exact Hold|].
  destruct (poll_after_sweep "job-3" settings_secret 3800 store_three_jobs [] [])
    as (H & _).
  exact (H _ Hj Hold).
Defined.

Lemma string_length_app (s1 s2 : string) :
  String.length (s1 +:+ s2) = (String.length s1 + String.length s2)%nat.
Proof. induction s1 as [|a s1 IH]; simpl; [done|]. by rewrite IH. Qed.

(** X22.  The social media crew builds its Gemini LLM by putting
    "gemini/" before the configured model name unconditionally, where
    [_get_crewai_llm] of the other crews adds the prefix only to a name
    that lacks it.  For the google provider with the model left to the
    settings the two build the same LLM exactly when the configured name
    does not already start with "gemini/"; when it does, the social
    media crew's model name carries the prefix twice. *)
Theorem gemini_llm_prefix_unconditional settings llm provider model :
  _get_crewai_llm (Some meta_google_only) settings = inr (llm, provider, model) →
  startswith (llm_model (_get_gemini_llm settings)) "gemini/" = true ∧
  (llm = _get_gemini_llm settings ↔ startswith (gemini_model settings) "gemini/" = false) ∧
  (startswith (gemini_model settings) "gemini/" = true →
   llm_model (_get_gemini_llm settings) = "gemini/" +:+ llm_model llm).
Proof.
  unfold _get_crewai_llm, resolve_provider, meta_google_only. simpl.
  intros [= <- <- <-]. unfold _get_gemini_llm, with_prefix. simpl llm_model.
  split; [apply prefix_append|].
  destruct (startswith (gemini_model settings) "gemini/") eqn:Hp; simpl.
  - split; [|done]. split; [|done]. intros [= H]. exfalso.
    apply (f_equal String.length) in H. rewrite string_length_app in H.
    simpl in H. lia.
  - split; [done|]. done.
Qed.

Lemma gemini_llm_prefix_unconditional_witness :
  _get_crewai_llm (Some meta_google_only) settings_prefixed
    = inr (mkLLM "gemini/gemini-2.0-flash" "0.7" 90, "google", "gemini/gemini-2.0-flash") ∧
  llm_model (_get_gemini_llm settings_prefixed) = "gemini/gemini/gemini-2.0-flash".
Proof.
  split; [reflexivity|].
  destruct (gemini_llm_prefix_unconditional settings_prefixed
              (mkLLM "gemini/gemini-2.0-flash" "0.7" 90) "google"
              "gemini/gemini-2.0-flash" eq_refl) as (_ & _ & H).
  by rewrite H.
Defined.
